(** * Shallow embedding of [app/main.py] (SHAKEMAP API)

    Three parts of the module are embedded:

    - the admission queue ([_active], [_queue], [_maintain_and_promote] and
      the four [/api/queue/*] handlers), in [Module Queue];
    - the compute cache ([_CACHE], [_make_event_key], [_compute_and_store],
      [_get_or_compute]), in [Module Cache];
    - the data routes built on the cache ([/api/run], [/api/refresh],
      [/api/cache_state], [/api/simulate]), in [Module Api].

    [Module Requests] adds the reading of the request bodies of the queue
    routes, and [Module Racing] the cache among concurrent callers.

    Conventions.  A handler body runs under its lock, so each handler is one
    atomic transition of the component's state.  [time.time()] is a clock
    that is read several times inside one handler; the n-th reading is
    [time n] and the state counts the readings made so far.  Timestamps are
    Python floats in the source; they are integers here, which keeps the
    order comparison [(now - ts) > HEARTBEAT_TIMEOUT] and nothing else. *)

From stdpp Require Import gmap strings list fin_maps.
From Stdlib Require Import ZArith.

Local Open Scope Z_scope.

(* ===================================================================== *)
Module Queue.

(** ** Constants (main.py, lines 113-115) *)
Definition MAX_ACTIVE : Z := 10.
Definition HEARTBEAT_TIMEOUT : Z := 45.
Definition PROMOTE_BATCH : Z := 5.

(** ** State (main.py, lines 118-119)
    [_active] is a dict from [(client_id, tab_id)] to the last-seen
    timestamp; [_queue] is a deque of [(client_id, tab_id, enq_ts)]. *)
Abbreviation key := (string * string)%type.
Abbreviation entry := (string * string * Z)%type.

Record qstate : Type := QState {
  active : gmap key Z;
  queue : list entry;
  tick : nat            (* readings of time.time() made so far *)
}.

Definition init : qstate := QState ∅ [] 0.

Definition entry_key (e : entry) : key := (e.1.1, e.1.2).
Definition queue_keys (q : list entry) : list key := entry_key <$> q.

(** [len(_active)] *)
Definition len (a : gmap key Z) : Z := Z.of_nat (size a).

(** ** JSON bodies returned by the handlers *)
Inductive response : Type :=
| RActive (n_active limit : Z)
| RQueued (position : option nat) (n_active limit : Z)
| RNone (n_active limit : Z)
| ROk (n_active limit : Z)
| RError400.

(** [not client_id]: a missing field ([None]) and the empty string are
    both falsy. *)
Definition falsy (x : option string) : bool :=
  match x with
  | None => true
  | Some s => bool_decide (s = EmptyString)
  end.

(** The validation of lines 168, 208 and 227: a request with a missing or
    empty id is answered 400 before the lock is taken; otherwise the pair
    is the session key. *)
Definition valid_ids (c t : option string) : option (string * string) :=
  match c, t with
  | Some c', Some t' =>
      if falsy c || falsy t then None else Some (c', t')
  | _, _ => None
  end.

(** ** [_queue_position] (lines 124-130) *)
Fixpoint position_from (pos : nat) (client_id tab_id : string)
    (q : list entry) : option nat :=
  match q with
  | [] => None
  | (c, t, _) :: q' =>
      if bool_decide (c = client_id) && bool_decide (t = tab_id)
      then Some pos
      else position_from (S pos) client_id tab_id q'
  end.

Definition _queue_position (client_id tab_id : string) (q : list entry)
    : option nat :=
  position_from 1 client_id tab_id q.

(** ** Removal of a waiter in [queue_leave] (lines 234-240)
    The loop stops at the first entry of the snapshot whose two ids match
    and asks the deque to remove the first element equal to that triple;
    [deque.remove] raises [ValueError] when there is none, which the
    handler swallows. *)
Definition first_match (client_id tab_id : string) (q : list entry)
    : option entry :=
  snd <$> list_find
    (λ e, e.1.1 = client_id ∧ e.1.2 = tab_id) q.

Fixpoint deque_remove (x : entry) (q : list entry) : option (list entry) :=
  match q with
  | [] => None
  | y :: q' =>
      if decide (y = x) then Some q'
      else cons y <$> deque_remove x q'
  end.

Definition leave_queue (client_id tab_id : string) (q : list entry)
    : list entry :=
  match first_match client_id tab_id q with
  | Some e => match deque_remove e q with
              | Some q' => q'
              | None => q
              end
  | None => q
  end.

Section WithClock.

(** The clock: [time n] is the value of the n-th call of [time.time()]. *)
Variable time : nat → Z.

(** [_now()] (lines 121-122) reads the clock. *)
Definition _now (tk : nat) : Z * nat := (time tk, S tk).

(** ** [_maintain_and_promote] (lines 132-152) *)

(** Line 136: the keys whose age exceeds the timeout. *)
Definition expired (now : Z) (a : gmap key Z) : list key :=
  (filter (λ kv : key * Z, HEARTBEAT_TIMEOUT < now - kv.2) (map_to_list a)).*1.

(** Lines 137-138: [for k in expired: _active.pop(k, None)]. *)
Definition pop_all (ks : list key) (a : gmap key Z) : gmap key Z :=
  foldl (λ m k, delete k m) a ks.

(** Lines 143-152: the promotion loop.  Every iteration pops the head of
    the deque, so the loop is a structural recursion on the queue; the
    three conjuncts of the loop condition are pure, and the emptiness test
    is the [match]. *)
Fixpoint promote (q : list entry) (a : gmap key Z) (slots moved : Z)
    (tk : nat) : gmap key Z * list entry * nat :=
  match q with
  | [] => (a, [], tk)
  | (c_id, t_id, _) :: q' =>
      if bool_decide (0 < slots) && bool_decide (moved < PROMOTE_BATCH) then
        if decide (is_Some (a !! (c_id, t_id))) then
          promote q' a slots moved tk
        else
          let '(ts, tk') := _now tk in
          promote q' (<[(c_id, t_id) := ts]> a) (slots - 1) (moved + 1) tk'
      else (a, q, tk)
  end.

Definition expire (s : qstate) : qstate :=
  let '(now, tk) := _now (tick s) in
  QState (pop_all (expired now (active s)) (active s)) (queue s) tk.

Definition slots_of (a : gmap key Z) : Z := Z.max 0 (MAX_ACTIVE - len a).

Definition _maintain_and_promote (s : qstate) : qstate :=
  let s1 := expire s in
  let '(a, q, tk) := promote (queue s1) (active s1) (slots_of (active s1)) 0 (tick s1) in
  QState a q tk.

(** ** [queue_enter] (lines 163-189), from the two ids on; the reading of
    the request body (lines 165-167) is [Requests.enter_request]. *)
Definition queue_enter (client_id tab_id : option string) (s : qstate)
    : response * qstate :=
  match client_id, tab_id with
  | Some c, Some t =>
      if falsy client_id || falsy tab_id then (RError400, s) else
      let s1 := _maintain_and_promote s in
      let k := (c, t) in
      if decide (is_Some (active s1 !! k)) then
        let '(ts, tk) := _now (tick s1) in
        let a := <[k := ts]> (active s1) in
        (RActive (len a) MAX_ACTIVE, QState a (queue s1) tk)
      else if bool_decide (len (active s1) < MAX_ACTIVE) then
        let '(ts, tk) := _now (tick s1) in
        let a := <[k := ts]> (active s1) in
        (RActive (len a) MAX_ACTIVE, QState a (queue s1) tk)
      else
        let s2 :=
          match _queue_position c t (queue s1) with
          | None =>
              let '(ts, tk) := _now (tick s1) in
              QState (active s1) (queue s1 ++ [(c, t, ts)]) tk
          | Some _ => s1
          end in
        (RQueued (_queue_position c t (queue s2)) (len (active s2)) MAX_ACTIVE,
         s2)
  | _, _ => (RError400, s)
  end.

(** ** [queue_status] (lines 191-201); the ids are query parameters and
    are not checked for emptiness. *)
Definition queue_status (client_id tab_id : string) (s : qstate)
    : response * qstate :=
  let s1 := _maintain_and_promote s in
  if decide (is_Some (active s1 !! (client_id, tab_id))) then
    (RActive (len (active s1)) MAX_ACTIVE, s1)
  else
    match _queue_position client_id tab_id (queue s1) with
    | Some pos => (RQueued (Some pos) (len (active s1)) MAX_ACTIVE, s1)
    | None => (RNone (len (active s1)) MAX_ACTIVE, s1)
    end.

(** ** [queue_heartbeat] (lines 203-220), from the two ids on; the reading
    of the request body (lines 205-207) is [Requests.heartbeat_request]. *)
Definition queue_heartbeat (client_id tab_id : option string) (s : qstate)
    : response * qstate :=
  match client_id, tab_id with
  | Some c, Some t =>
      if falsy client_id || falsy tab_id then (RError400, s) else
      let s1 := _maintain_and_promote s in
      let k := (c, t) in
      if decide (is_Some (active s1 !! k)) then
        let '(ts, tk) := _now (tick s1) in
        let a := <[k := ts]> (active s1) in
        (RActive (len a) MAX_ACTIVE, QState a (queue s1) tk)
      else
        match _queue_position c t (queue s1) with
        | Some pos => (RQueued (Some pos) (len (active s1)) MAX_ACTIVE, s1)
        | None => (RNone (len (active s1)) MAX_ACTIVE, s1)
        end
  | _, _ => (RError400, s)
  end.

(** ** [queue_leave] (lines 222-242), from the two ids on; the reading of
    the request body (lines 224-226) is [Requests.leave_request]. *)
Definition leave_remove (c t : string) (s : qstate) : qstate :=
  QState (delete (c, t) (active s)) (leave_queue c t (queue s)) (tick s).

Definition queue_leave (client_id tab_id : option string) (s : qstate)
    : response * qstate :=
  match client_id, tab_id with
  | Some c, Some t =>
      if falsy client_id || falsy tab_id then (RError400, s) else
      let s1 := leave_remove c t s in
      let s2 := _maintain_and_promote s1 in
      (ROk (len (active s2)) MAX_ACTIVE, s2)
  | _, _ => (RError400, s)
  end.

(** ** Sequences of requests *)
Inductive op : Type :=
| Enter (client_id tab_id : option string)
| Status (client_id tab_id : string)
| Heartbeat (client_id tab_id : option string)
| Leave (client_id tab_id : option string).

Definition step (o : op) (s : qstate) : response * qstate :=
  match o with
  | Enter c t => queue_enter c t s
  | Status c t => queue_status c t s
  | Heartbeat c t => queue_heartbeat c t s
  | Leave c t => queue_leave c t s
  end.

Definition run (ops : list op) (s : qstate) : qstate :=
  foldl (λ st o, (step o st).2) s ops.

(** ** The handlers' own logic, after the maintenance pass
    (lines 173-189, 195-201 and 213-220), named apart so that the order
    "maintenance, then logic" can be stated. *)
Definition enter_logic (c t : string) (s1 : qstate) : response * qstate :=
  let k := (c, t) in
  if decide (is_Some (active s1 !! k)) then
    let a := <[k := time (tick s1)]> (active s1) in
    (RActive (len a) MAX_ACTIVE, QState a (queue s1) (S (tick s1)))
  else if bool_decide (len (active s1) < MAX_ACTIVE) then
    let a := <[k := time (tick s1)]> (active s1) in
    (RActive (len a) MAX_ACTIVE, QState a (queue s1) (S (tick s1)))
  else
    match _queue_position c t (queue s1) with
    | None =>
        let q := queue s1 ++ [(c, t, time (tick s1))] in
        (RQueued (_queue_position c t q) (len (active s1)) MAX_ACTIVE,
         QState (active s1) q (S (tick s1)))
    | Some pos => (RQueued (Some pos) (len (active s1)) MAX_ACTIVE, s1)
    end.

Definition status_logic (c t : string) (s1 : qstate) : response * qstate :=
  if decide (is_Some (active s1 !! (c, t))) then
    (RActive (len (active s1)) MAX_ACTIVE, s1)
  else
    match _queue_position c t (queue s1) with
    | Some pos => (RQueued (Some pos) (len (active s1)) MAX_ACTIVE, s1)
    | None => (RNone (len (active s1)) MAX_ACTIVE, s1)
    end.

Definition heartbeat_logic (c t : string) (s1 : qstate) : response * qstate :=
  if decide (is_Some (active s1 !! (c, t))) then
    let a := <[(c, t) := time (tick s1)]> (active s1) in
    (RActive (len a) MAX_ACTIVE, QState a (queue s1) (S (tick s1)))
  else
    match _queue_position c t (queue s1) with
    | Some pos => (RQueued (Some pos) (len (active s1)) MAX_ACTIVE, s1)
    | None => (RNone (len (active s1)) MAX_ACTIVE, s1)
    end.

(** The reading of "leave begins with the maintenance pass": maintenance
    first, then the removal, then the counts.  This follows the words of
    the specification, not the source, and is only compared with
    [queue_leave]. *)
Definition leave_maintenance_first (c t : string) (s : qstate)
    : response * qstate :=
  let s1 := _maintain_and_promote s in
  let s2 := leave_remove c t s1 in
  (ROk (len (active s2)) MAX_ACTIVE, s2).

End WithClock.

(** ** Concrete request sequences *)
Definition ent (n : string) : op := Enter (Some "c"%string) (Some n).

(** Ten sessions fill the active set. *)
Definition fill_ten : list op :=
  [ent "1"; ent "2"; ent "3"; ent "4"; ent "5";
   ent "6"; ent "7"; ent "8"; ent "9"; ent "10"]%string.

(** Six more are queued behind them. *)
Definition six_waiters : list op :=
  [ent "q1"; ent "q2"; ent "q3"; ent "q4"; ent "q5"; ent "q6"]%string.

(** A clock that stands at 0 for the 32 readings of those sixteen requests
    and at 100 afterwards: by then all ten active sessions have timed out. *)
Definition clock_jump (n : nat) : Z := if (n <? 32)%nat then 0 else 100.

(** A clock that never advances. *)
Definition clock_still (n : nat) : Z := 0.

(** The count reported in a response. *)
Definition n_active_of (r : response) : option Z :=
  match r with
  | RActive n _ | RQueued _ n _ | RNone n _ | ROk n _ => Some n
  | RError400 => None
  end.

(** ** Predicates used in the statements *)

(** The keys that a pass over the popped entries [ks] promotes, in order:
    those not yet in the active set when they are popped. *)
Fixpoint fresh (seen : gset key) (ks : list key) : list key :=
  match ks with
  | [] => []
  | k :: ks' =>
      if decide (k ∈ seen) then fresh seen ks'
      else k :: fresh ({[k]} ∪ seen) ks'
  end.

(** No key is queued twice. *)
Definition queue_nodup (s : qstate) : Prop := NoDup (queue_keys (queue s)).

(** No key is both active and queued. *)
Definition never_both (s : qstate) : Prop :=
  ∀ k, k ∈ queue_keys (queue s) → active s !! k = None.

(** A key appears at most once across the active set and the queue. *)
Definition at_most_once (s : qstate) : Prop := queue_nodup s ∧ never_both s.

(** The capacity invariant. *)
Definition capped (s : qstate) : Prop := len (active s) ≤ MAX_ACTIVE.

End Queue.

(* ===================================================================== *)
Module Cache.

(** ** Python values exchanged with the collaborators
    Events and overlay documents are JSON-like: [None], booleans, numbers,
    strings, lists and dicts.  A float is the dyadic number [m * 2^e]; NaN
    and the infinities are left out.  A dict is an association list read
    at the first match. *)
#[local] Unset Elimination Schemes.
Inductive value : Type :=
| VNone
| VBool (b : bool)
| VInt (n : Z)
| VFloat (m e : Z)
| VStr (s : string)
| VList (l : list value)
| VDict (d : list (string * value)).
#[local] Set Elimination Schemes.

(** [v is None] *)
Definition is_none (v : value) : bool :=
  match v with VNone => true | _ => false end.

(** Truth value of an object, as in [if ev:] and [a or b]. *)
Definition truthy (v : value) : bool :=
  match v with
  | VNone => false
  | VBool b => b
  | VInt n => negb (n =? 0)
  | VFloat m _ => negb (m =? 0)
  | VStr s => negb (bool_decide (s = EmptyString))
  | VList l => match l with [] => false | _ => true end
  | VDict d => match d with [] => false | _ => true end
  end.

(** Exceptions, all of them subclasses of [Exception]: the
    [AttributeError] of a [.get] on an object that is not a dict, and
    whatever a collaborator raises. *)
Inductive exn : Type :=
| AttributeError
| Failure (msg : string).

Abbreviation result A := (exn + A)%type.

Fixpoint assoc (k : string) (d : list (string * value)) : option value :=
  match d with
  | [] => None
  | (k', v) :: d' => if decide (k' = k) then Some v else assoc k d'
  end.

(** [obj.get(k, dflt)] *)
Definition py_get (obj : value) (k : string) (dflt : value) : result value :=
  match obj with
  | VDict d => inr (default dflt (assoc k d))
  | _ => inl AttributeError
  end.

(** ** [_CACHE] (lines 40-44) *)
Record cache : Type := CacheEntry {
  data : value;                 (* [None] before the first computation *)
  event_key : option string;
  ts : Z
}.

Definition empty_cache : cache := CacheEntry VNone None 0.

(** ** Calls made, in order: a ghost log of the calls of the two
    collaborators and of [_make_event_key]. *)
Inductive call : Type :=
| CallFetch
| CallCompute (ev : value)
| CallKey (meta : value).

(** Number of overlay computations, and of fetches, in a log. *)
Fixpoint computations (l : list call) : nat :=
  match l with
  | [] => 0
  | CallCompute _ :: l' => S (computations l')
  | _ :: l' => computations l'
  end.

Fixpoint fetches (l : list call) : nat :=
  match l with
  | [] => 0
  | CallFetch :: l' => S (fetches l')
  | _ :: l' => fetches l'
  end.

Section WithCollaborators.

(** The outside world: the state the collaborators and the clock depend
    on.  [app/logic.py] is not part of the sources; its two functions used
    by the cache are parameters, and so is Python's [str]. *)
Context {W : Type}.
Variable fetch_latest_event_in_thailand : W → result value * W.
Variable compute_overlay_from_event : value → W → result value * W.
Variable time_time : W → Z * W.
Variable py_str : value → string.

Record mstate : Type := MState {
  world : W;
  store : cache;
  calls : list call
}.

(** ** A state-and-exception monad for the bodies of the functions.  An
    exception leaves the assignments made before it in place. *)
Definition M (A : Type) : Type := mstate → result A * mstate.

#[local] Instance M_ret : MRet M := λ A (x : A) st, (inr x, st).
#[local] Instance M_bind : MBind M := λ A B (f : A → M B) (m : M A) st,
  match m st with
  | (inr x, st') => f x st'
  | (inl e, st') => (inl e, st')
  end.

Definition lift {A} (r : result A) : M A := λ st, (r, st).

(** [try: m except Exception: h] *)
Definition try_except {A} (m : M A) (h : M A) : M A := λ st,
  match m st with
  | (inl _, st') => h st'
  | r => r
  end.

Definition log (c : call) (st : mstate) : mstate :=
  MState (world st) (store st) (calls st ++ [c]).

Definition fetch : M value := λ st,
  let '(r, w) := fetch_latest_event_in_thailand (world st) in
  (r, log CallFetch (MState w (store st) (calls st))).

Definition compute (ev : value) : M value := λ st,
  let '(r, w) := compute_overlay_from_event ev (world st) in
  (r, log (CallCompute ev) (MState w (store st) (calls st))).

Definition now : M Z := λ st,
  let '(t, w) := time_time (world st) in
  (inr t, MState w (store st) (calls st)).

Definition read : M cache := λ st, (inr (store st), st).

Definition set_data (d : value) : M unit := λ st,
  (inr (), MState (world st)
             (CacheEntry d (event_key (store st)) (ts (store st))) (calls st)).

Definition set_event_key (k : string) : M unit := λ st,
  (inr (), MState (world st)
             (CacheEntry (data (store st)) (Some k) (ts (store st))) (calls st)).

Definition set_ts (t : Z) : M unit := λ st,
  (inr (), MState (world st)
             (CacheEntry (data (store st)) (event_key (store st)) t) (calls st)).

(** ** [_make_event_key] (lines 49-50) *)
Definition key_of (meta : value) : result string :=
  match py_get meta "time_utc" VNone with
  | inl e => inl e
  | inr time_utc =>
  match (if truthy time_utc then inr time_utc
         else py_get meta "time_th" VNone) with
  | inl e => inl e
  | inr when =>
  match py_get meta "lat" VNone, py_get meta "lon" VNone,
        py_get meta "mag" VNone, py_get meta "depth_km" VNone with
  | inr lat, inr lon, inr mag, inr depth_km =>
      inr (String.append (py_str when) (String.append "|"
          (String.append (py_str lat) (String.append "|"
          (String.append (py_str lon) (String.append "|"
          (String.append (py_str mag) (String.append "|"
          (py_str depth_km)))))))))
  | _, _, _, _ => inl AttributeError
  end end end.

Definition _make_event_key (meta : value) : M string := λ st,
  (key_of meta, log (CallKey meta) st).

(** ** [_compute_and_store] (lines 59-67) *)
Definition _compute_and_store : M value :=
  ev ← fetch;
  d ← compute ev;
  meta ← lift (py_get d "meta" (VDict []));
  _ ← set_data d;
  k ← _make_event_key meta;
  _ ← set_event_key k;
  t ← now;
  _ ← set_ts t;
  mret d.

(** Lines 87-94: the dict built from the fetched event. *)
Definition probe_meta (ev : value) : result value :=
  match py_get ev "time_utc" VNone, py_get ev "time_th" VNone,
        py_get ev "lat" VNone, py_get ev "lon" VNone,
        py_get ev "mag" VNone, py_get ev "depth" VNone with
  | inr time_utc, inr time_th, inr lat, inr lon, inr mag, inr depth =>
      inr (VDict [("time_utc", time_utc); ("time_th", time_th);
                  ("lat", lat); ("lon", lon); ("mag", mag);
                  ("depth_km", depth)]%string)
  | _, _, _, _, _, _ => inl AttributeError
  end.

(** The candidate fingerprint of a fetched event (lines 87-94). *)
Definition probe_key (ev : value) : result string :=
  match probe_meta ev with
  | inr meta => key_of meta
  | inl e => inl e
  end.

(** Lines 83-102: the body of the [try].  [Some d] is the [return data] of
    line 102; [None] means that the body ran to its end. *)
Definition probe : M (option value) :=
  ev ← fetch;
  if truthy ev then
    meta ← lift (probe_meta ev);
    new_key ← _make_event_key meta;
    c ← read;
    if negb (bool_decide (new_key = EmptyString))
       && negb (bool_decide (Some new_key = event_key c)) then
      d ← compute ev;
      _ ← set_data d;
      _ ← set_event_key new_key;
      t ← now;
      _ ← set_ts t;
      mret (Some d)
    else mret None
  else mret None.

(** ** [_get_or_compute] (lines 69-108), for one caller at a time; the
    same function among other callers, where the re-check of line 78 can
    differ from the check of line 76, is [Racing._get_or_compute_among]. *)
Definition _get_or_compute (force : bool) : M value :=
  if force then _compute_and_store
  else
    c ← read;
    if is_none (data c) then
      c' ← read;
      if is_none (data c') then _compute_and_store
      else mret (data c')
    else
      r ← try_except probe (mret None);
      match r with
      | Some d => mret d
      | None => c'' ← read; mret (data c'')
      end.

End WithCollaborators.

(** ** A concrete world, for running the functions
    The world is the script of the answers that the next fetches will
    give; the overlay computed from an event carries the event's fields in
    its [meta], with [depth] under the name [depth_km]. *)
Definition scripted_fetch (w : list (result value))
    : result value * list (result value) :=
  match w with
  | [] => (inl (Failure "no answer"), [])
  | r :: w' => (r, w')
  end.

Definition field (ev : value) (k : string) : value :=
  match py_get ev k VNone with inr v => v | inl _ => VNone end.

Definition render (ev : value) (w : list (result value))
    : result value * list (result value) :=
  (inr (VDict [("meta",
          VDict [("time_utc", field ev "time_utc");
                 ("time_th", field ev "time_th");
                 ("lat", field ev "lat"); ("lon", field ev "lon");
                 ("mag", field ev "mag");
                 ("depth_km", field ev "depth")]);
               ("overlay", VStr "data:image/png;base64,")]%string), w).

Definition render_fails (ev : value) (w : list (result value))
    : result value * list (result value) :=
  (inl (Failure "render failed"), w).

Definition clock_at (t : Z) (w : list (result value))
    : Z * list (result value) := (t, w).

Definition show (v : value) : string :=
  match v with
  | VNone => "None"
  | VStr s => s
  | VBool true => "True"
  | VBool false => "False"
  | _ => "#"
  end.

Definition E1 : value :=
  VDict [("time_utc", VStr "2024-05-01T10:00:00Z"); ("lat", VStr "19.5");
         ("lon", VStr "99.1"); ("mag", VStr "4.2"); ("depth", VStr "10")]%string.

Definition E2 : value :=
  VDict [("time_utc", VStr "2024-05-02T03:30:00Z"); ("lat", VStr "18.7");
         ("lon", VStr "98.9"); ("mag", VStr "3.1"); ("depth", VStr "5")]%string.

(** The state after a first [_get_or_compute] at time 7 on event [E1],
    with [script] as the answers of the fetches to come. *)
Definition warm (script : list (result value)) : mstate :=
  let st := (_get_or_compute scripted_fetch render (clock_at 7) show false
               (MState [inr E1] empty_cache [])).2 in
  MState script (store st) (calls st).

End Cache.

(* ===================================================================== *)
Module Api.
Import Cache.

(** ** The data routes (main.py, lines 245-308)
    An answer is a status code and a JSON body.  A handler that returns a
    plain dict is answered with status 200. *)
Record http : Type := Http {
  status : Z;
  body : value
}.

(** What a route can see raised inside its [try]: an exception of the
    cache or of a collaborator, the [KeyError] of [body[k]], the
    [TypeError] or [ValueError] of [float(v)], and the [ValueError] or
    [TypeError] of [JSONResponse(content)] on a content that cannot be
    rendered as JSON. *)
Inductive raised : Type :=
| Core (e : exn)
| KeyError (k : string)
| FloatError (v : value)
| NotEncodable (content : value).

(** [body.get(k)] on the request body, which is a dict. *)
Definition body_get (b : list (string * value)) (k : string) : value :=
  default VNone (assoc k b).

(** [v == s] for a string literal [s]. *)
Definition is_str (v : value) (s : string) : bool :=
  match v with
  | VStr s' => bool_decide (s' = s)
  | _ => false
  end.

(** [_CACHE["event_key"]] as JSON: a string, or null before the first
    computation. *)
Definition key_json (k : option string) : value :=
  match k with
  | Some s => VStr s
  | None => VNone
  end.

Section WithCollaborators.

Context {W : Type}.
Variable fetch_latest_event_in_thailand : W → result value * W.
Variable compute_overlay_from_event : value → W → result value * W.
Variable time_time : W → Z * W.
Variable py_str : value → string.

(** [simulate_event(lat, lon, depth_km, mag)] of [app/logic.py], Python's
    [float] ([None] when it raises) and [str] on exceptions are
    parameters. *)
Variable simulate_event : value → value → value → value → W → result value * W.
Variable py_float : value → option value.
Variable str_exn : raised → string.

(** Whether [JSONResponse(content)] can be built.  Its constructor renders
    the content with [json.dumps(..., allow_nan=False)], which raises on
    NaN, on the infinities and on objects that JSON does not have.  The
    documents of the collaborators may hold such things, which [value]
    leaves out: whether a document can be rendered is a parameter. *)
Variable json_encodable : value → bool.

(** [JSONResponse({"error": str(e)}, status_code=500)]: a dict with one
    string, which can always be rendered. *)
Definition error_500 (e : raised) : http :=
  Http 500 (VDict [("error", VStr (str_exn e))]%string).

(** [return JSONResponse(content)] inside a [try] whose [except] answers
    500: the response is built inside the [try], so a content that cannot
    be rendered ends in the [except] as well. *)
Definition json_response (content : value) : http :=
  if json_encodable content then Http 200 content
  else error_500 (NotEncodable content).

Definition answer (r : raised + value) : http :=
  match r with
  | inr d => json_response d
  | inl e => error_500 e
  end.

Definition from_core {A} (r : result A) : raised + A :=
  match r with
  | inr x => inr x
  | inl e => inl (Core e)
  end.

(** [GET /api/run] (lines 247-253) *)
Definition api_run_get (st : mstate (W := W)) : http * mstate (W := W) :=
  let '(r, st') :=
    _get_or_compute fetch_latest_event_in_thailand compute_overlay_from_event
      time_time py_str false st in
  (answer (from_core r), st').

(** [float(body[k])] *)
Definition float_arg (b : list (string * value)) (k : string)
    : raised + value :=
  match assoc k b with
  | None => inl (KeyError k)
  | Some v => match py_float v with
              | Some f => inr f
              | None => inl (FloatError v)
              end
  end.

(** Lines 266-270 and 301-305: the four conversions in order, then the
    call of the simulator. *)
Definition simulate_request (b : list (string * value)) (st : mstate (W := W))
    : (raised + value) * mstate (W := W) :=
  match float_arg b "lat" with
  | inl e => (inl e, st)
  | inr lat =>
  match float_arg b "lon" with
  | inl e => (inl e, st)
  | inr lon =>
  match float_arg b "depth" with
  | inl e => (inl e, st)
  | inr depth =>
  match float_arg b "mag" with
  | inl e => (inl e, st)
  | inr mag =>
      let '(r, w) := simulate_event lat lon depth mag (world st) in
      (from_core r, MState w (store st) (calls st))
  end end end end.

(** [POST /api/run] (lines 256-277) *)
Definition api_run (b : list (string * value)) (st : mstate (W := W))
    : http * mstate (W := W) :=
  if is_str (body_get b "mode") "simulate" then
    let '(r, st') := simulate_request b st in (answer r, st')
  else
    let force := truthy (body_get b "force") in
    let '(r, st') :=
      _get_or_compute fetch_latest_event_in_thailand
        compute_overlay_from_event time_time py_str force st in
    (answer (from_core r), st').

(** [POST /api/refresh] (lines 280-286) *)
Definition api_refresh (st : mstate (W := W)) : http * mstate (W := W) :=
  let '(r, st') :=
    _get_or_compute fetch_latest_event_in_thailand compute_overlay_from_event
      time_time py_str true st in
  match r with
  | inl e => (error_500 (Core e), st')
  | inr d =>
      match py_get d "meta" (VDict []) with
      | inl e => (error_500 (Core e), st')
      | inr meta =>
          (json_response
             (VDict [("ok", VBool true); ("meta", meta);
                     ("event_key", key_json (event_key (store st')))]%string),
           st')
      end
  end.

(** [GET /api/cache_state] (lines 289-296); [CACHE_TTL_SEC] is [None], and
    the timestamp, an integer here, is shown as the float [ts * 2^0].  The
    dict holds a boolean, a string or null, a finite float and null, which
    can always be rendered. *)
Definition api_cache_state (st : mstate (W := W)) : http * mstate (W := W) :=
  (Http 200 (VDict [("has_cache", VBool (negb (is_none (data (store st)))));
                    ("event_key", key_json (event_key (store st)));
                    ("ts", VFloat (ts (store st)) 0);
                    ("ttl_sec", VNone)]%string),
   st).

(** [POST /api/simulate] (lines 298-308) *)
Definition api_simulate (b : list (string * value)) (st : mstate (W := W))
    : http * mstate (W := W) :=
  let '(r, st') := simulate_request b st in (answer r, st').

End WithCollaborators.

(** A simulator for running the routes: it echoes its parameters. *)
Definition echo_simulate (lat lon depth mag : value) (w : list (result value))
    : result value * list (result value) :=
  (inr (VDict [("meta", VDict [("lat", lat); ("lon", lon);
                               ("depth_km", depth); ("mag", mag)])]%string), w).

(** A stand-in for [float]: numbers pass, everything else raises. *)
Definition number_only (v : value) : option value :=
  match v with
  | VFloat m e => Some (VFloat m e)
  | VInt n => Some (VFloat n 0)
  | _ => None
  end.

Definition describe (e : raised) : string :=
  match e with
  | Core (Failure msg) => msg
  | Core AttributeError => "AttributeError"
  | KeyError k => k
  | FloatError _ => "could not convert to float"
  | NotEncodable _ => "not JSON compliant"
  end.

(** Documents that can all be rendered, and documents of which none can. *)
Definition all_encodable (content : value) : bool := true.
Definition none_encodable (content : value) : bool := false.

End Api.

(* ===================================================================== *)
Module Requests.
Import Queue.

(** ** The request bodies of the queue routes (lines 165-167, 205-207 and
    224-226)
    [body = await req.json()] raises when the request has no body or a
    body that is not JSON, and [body.get(...)] raises when the JSON is not
    an object.  Both happen before the validation and outside any [try]:
    the request ends in an unhandled exception, which the framework
    answers with status 500.  Otherwise the body is an object, and each of
    the two fields is read with [.get]: [None] when the field is absent or
    null.  The ids of the specification are strings, and so are the fields
    here when present. *)
Inductive body : Type :=
| NoObject
| Object (client_id tab_id : option string).


Section WithClock.

Variable time : nat → Z.




End WithClock.

End Requests.

(* ===================================================================== *)
Module Racing.
Import Cache.

(** ** [_get_or_compute] among other callers
    The routes that call [_get_or_compute] are synchronous and run in a
    pool of threads.  [_CACHE] is written only under [_CACHE_LOCK], so
    from the point of view of one caller the entry can change, by the
    doing of the others, at any point where the caller does not hold the
    lock: while it waits for the lock (lines 72, 77 and 97) and during the
    unlocked staleness check (lines 83-96 and up to line 108).  [others i]
    is what the other callers have done to the entry at the i-th such
    point; it is arbitrary, which covers an entry caught between two of
    their assignments.  With [others i] the identity for every [i] this is
    [Cache._get_or_compute]. *)
Section WithCollaborators.

Context {W : Type}.
Variable fetch_latest_event_in_thailand : W → result value * W.
Variable compute_overlay_from_event : value → W → result value * W.
Variable time_time : W → Z * W.
Variable py_str : value → string.
Variable others : nat → cache → cache.

#[local] Existing Instances M_ret M_bind.

Definition interfere (i : nat) : M (W := W) unit := λ st,
  (inr (), MState (world st) (others i (store st)) (calls st)).

Definition cas : M (W := W) value :=
  _compute_and_store fetch_latest_event_in_thailand
    compute_overlay_from_event time_time py_str.

(** Lines 83-102, as [Cache.probe], with the points where the entry can
    change: before the read of line 96 and while waiting for the lock of
    line 97. *)
Definition probe_among : M (W := W) (option value) :=
  ev ← fetch fetch_latest_event_in_thailand;
  if truthy ev then
    meta ← lift (probe_meta ev);
    new_key ← _make_event_key py_str meta;
    _ ← interfere 2;
    c ← read;
    if negb (bool_decide (new_key = EmptyString))
       && negb (bool_decide (Some new_key = event_key c)) then
      _ ← interfere 3;
      d ← compute compute_overlay_from_event ev;
      _ ← set_data d;
      _ ← set_event_key new_key;
      t ← now time_time;
      _ ← set_ts t;
      mret (Some d)
    else mret None
  else mret None.

Definition _get_or_compute_among (force : bool) : M (W := W) value :=
  if force then
    _ ← interfere 0;
    cas
  else
    c ← read;
    if is_none (data c) then
      _ ← interfere 1;
      c' ← read;
      if is_none (data c') then cas
      else mret (data c')
    else
      r ← try_except probe_among (mret None);
      match r with
      | Some d => mret d
      | None => _ ← interfere 4; c'' ← read; mret (data c'')
      end.

End WithCollaborators.

(** Another caller that has stored the overlay of [E1] in the meantime. *)
Definition other_stored_E1 (i : nat) (c : cache) : cache :=
  store (warm []).

End Racing.

(* ===================================================================== *)
Module QueueFacts.
Import Queue.

(** ** The expiry scan *)

Lemma pop_all_lookup (ks : list key) (a : gmap key Z) (k : key) :
  pop_all ks a !! k = if decide (k ∈ ks) then None else a !! k.
Proof.
  unfold pop_all. revert a. induction ks as [|k' ks IH]; intros a; cbn [foldl].
  - by rewrite decide_False by apply not_elem_of_nil.
  - rewrite IH. destruct (decide (k ∈ ks)) as [Hin|Hin].
    + rewrite decide_True; [done | by right].
    + destruct (decide (k = k')) as [->|Hne].
      * rewrite lookup_delete_eq, decide_True; [done | by left].
      * rewrite lookup_delete_ne by done.
        rewrite decide_False; [done|].
        intros [?|?]%elem_of_cons; congruence.
Qed.

Lemma elem_of_expired (now : Z) (a : gmap key Z) (k : key) :
  k ∈ expired now a ↔ ∃ ts, a !! k = Some ts ∧ HEARTBEAT_TIMEOUT < now - ts.
Proof.
  unfold expired. rewrite list_elem_of_fmap. split.
  - intros [[k' ts] [-> [Hage Hin]%list_elem_of_filter]].
    apply elem_of_map_to_list in Hin. by exists ts.
  - intros (ts & Hk & Hage). exists (k, ts). split; [done|].
    apply list_elem_of_filter. split; [done|]. by apply elem_of_map_to_list.
Qed.

Lemma expire_lookup (time : nat → Z) (s : qstate) (k : key) (ts : Z) :
  active (expire time s) !! k = Some ts ↔
  active s !! k = Some ts ∧ ¬ (HEARTBEAT_TIMEOUT < time (tick s) - ts).
Proof.
  unfold expire; simpl. rewrite pop_all_lookup.
  destruct (decide (k ∈ expired (time (tick s)) (active s))) as [Hin|Hin].
  - apply elem_of_expired in Hin as (ts' & Hk & Hage).
    split; [done|]. intros [Hk' Hn]. congruence.
  - split.
    + intros Hk. split; [done|]. intros Hage. apply Hin.
      apply elem_of_expired. eauto.
    + by intros [? _].
Qed.

Lemma expire_subseteq (time : nat → Z) (s : qstate) :
  active (expire time s) ⊆ active s.
Proof.
  apply map_subseteq_spec. intros k ts Hk.
  by apply expire_lookup in Hk as [? _].
Qed.

Lemma expire_len (time : nat → Z) (s : qstate) :
  len (active (expire time s)) ≤ len (active s).
Proof.
  unfold len. apply inj_le, map_subseteq_size, expire_subseteq.
Qed.

(** ** The promotion loop *)

Lemma fresh_not_seen (seen : gset key) (ks : list key) (k : key) :
  k ∈ fresh seen ks → (k ∉ seen) ∧ (k ∈ ks).
Proof.
  revert seen. induction ks as [|k' ks IH]; intros seen; cbn [fresh].
  - by intros ?%elem_of_nil.
  - destruct (decide (k' ∈ seen)) as [Hs|Hs].
    + intros [? ?]%IH. split; [done | by right].
    + intros [->|Hin]%elem_of_cons.
      * split; [done | by left].
      * destruct (IH _ Hin) as [Hk ?]. split; [|by right].
        intros ?. apply Hk, elem_of_union. by right.
Qed.

Lemma fresh_NoDup (seen : gset key) (ks : list key) : NoDup (fresh seen ks).
Proof.
  revert seen. induction ks as [|k' ks IH]; intros seen; cbn [fresh].
  - constructor.
  - destruct (decide (k' ∈ seen)); [by apply IH|].
    apply NoDup_cons. split; [|by apply IH].
    intros [Hk _]%fresh_not_seen.
    apply Hk, elem_of_union. left. by apply elem_of_singleton.
Qed.

Lemma fresh_complete (seen : gset key) (ks : list key) (k : key) :
  k ∈ ks → k ∉ seen → k ∈ fresh seen ks.
Proof.
  revert seen. induction ks as [|k' ks IH]; intros seen; cbn [fresh].
  - by intros ?%elem_of_nil.
  - intros [->|Hin]%elem_of_cons Hns.
    + rewrite decide_False by done. by left.
    + destruct (decide (k' ∈ seen)); [by apply IH|].
      destruct (decide (k = k')) as [->|Hne]; [by left|].
      right. apply IH; [done|].
      intros [?%elem_of_singleton|?]%elem_of_union; congruence.
Qed.

Lemma promote_spec (time : nat → Z) (q : list entry) :
  ∀ (a : gmap key Z) (slots moved : Z) (tk : nat) a' q' tk',
    promote time q a slots moved tk = (a', q', tk') →
    ∃ popped,
      let promoted := fresh (dom a) (queue_keys popped) in
      q = popped ++ q' ∧
      tk' = (tk + length promoted)%nat ∧
      Z.of_nat (length promoted) ≤ Z.max 0 slots ∧
      Z.of_nat (length promoted) ≤ Z.max 0 (PROMOTE_BATCH - moved) ∧
      size a' = (size a + length promoted)%nat ∧
      (∀ i k, promoted !! i = Some k → a' !! k = Some (time ((tk + i)%nat))) ∧
      (∀ k, k ∉ promoted → a' !! k = a !! k) ∧
      (q' = [] ∨ slots - Z.of_nat (length promoted) ≤ 0
       ∨ PROMOTE_BATCH ≤ moved + Z.of_nat (length promoted)).
Proof.
  induction q as [|[[c t] ets] q IH]; intros a slots moved tk a' q' tk' Hp.
  - cbn in Hp. injection Hp as <- <- <-. exists []. cbn.
    split_and!; try lia; try done. by left.
  - cbn [promote] in Hp.
    destruct (bool_decide (0 < slots) && bool_decide (moved < PROMOTE_BATCH))
      eqn:Hcond.
    + apply andb_true_iff in Hcond as [Hs%bool_decide_eq_true Hm%bool_decide_eq_true].
      destruct (decide (is_Some (a !! (c, t)))) as [Hin|Hin].
      * apply IH in Hp as (popped & Hq & Htk & Hsl & Hmv & Hsz & Hnew & Hold & Hstop).
        exists ((c, t, ets) :: popped).
        assert (Hf : fresh (dom a) (queue_keys ((c, t, ets) :: popped))
                     = fresh (dom a) (queue_keys popped)).
        { cbn. rewrite decide_True; [done | by apply elem_of_dom]. }
        cbn zeta. rewrite Hf. rewrite Hq at 1. done.
      * cbn [_now] in Hp.
        apply IH in Hp as (popped & Hq & Htk & Hsl & Hmv & Hsz & Hnew & Hold & Hstop).
        exists ((c, t, ets) :: popped).
        assert (Hf : fresh (dom a) (queue_keys ((c, t, ets) :: popped))
                     = (c, t) :: fresh (dom (<[(c, t) := time tk]> a))
                                   (queue_keys popped)).
        { cbn. rewrite decide_False by (by rewrite elem_of_dom).
          by rewrite dom_insert_L. }
        cbn zeta. rewrite Hf. cbn zeta in *.
        set (promoted := fresh (dom (<[(c, t) := time tk]> a)) (queue_keys popped)) in *.
        assert (Hnk : (c, t) ∉ promoted).
        { intros [Hk _]%fresh_not_seen. apply Hk.
          rewrite dom_insert_L. apply elem_of_union. left.
          by apply elem_of_singleton. }
        rewrite map_size_insert_None in Hsz
          by (by apply eq_None_not_Some).
        cbn [length].
        split_and!.
        -- by rewrite Hq.
        -- lia.
        -- lia.
        -- lia.
        -- lia.
        -- intros [|i] k Hk.
           ++ injection Hk as <-. rewrite Hold by done.
              rewrite lookup_insert_eq. do 2 f_equal. lia.
           ++ cbn in Hk. rewrite (Hnew _ _ Hk). do 2 f_equal. lia.
        -- intros k Hk. apply not_elem_of_cons in Hk as [Hne Hk].
           rewrite Hold by done. by rewrite lookup_insert_ne.
        -- destruct Hstop as [Hq'|[Hs'|Hm']]; [by left | right; left; lia
                                              | right; right; lia].
    + injection Hp as <- <- <-. exists []. cbn.
      apply andb_false_iff in Hcond as [Hc%bool_decide_eq_false
                                       |Hc%bool_decide_eq_false].
      * split_and!; try lia; done.
      * split_and!; try lia; done.
Qed.

(** ** The maintenance pass as a whole *)

Lemma maintain_spec (time : nat → Z) (s : qstate) :
  let s1 := expire time s in
  let s' := _maintain_and_promote time s in
  ∃ popped,
    let promoted := fresh (dom (active s1)) (queue_keys popped) in
    queue s = popped ++ queue s' ∧
    tick s' = (tick s1 + length promoted)%nat ∧
    Z.of_nat (length promoted) ≤ slots_of (active s1) ∧
    Z.of_nat (length promoted) ≤ PROMOTE_BATCH ∧
    len (active s') = len (active s1) + Z.of_nat (length promoted) ∧
    (∀ i k, promoted !! i = Some k →
            active s' !! k = Some (time ((tick s1 + i)%nat))) ∧
    (∀ k, k ∉ promoted → active s' !! k = active s1 !! k) ∧
    (queue s' = [] ∨ MAX_ACTIVE ≤ len (active s')
     ∨ Z.of_nat (length promoted) = PROMOTE_BATCH).
Proof.
  intros s1 s'. subst s'. unfold _maintain_and_promote. fold s1.
  destruct (promote time (queue s1) (active s1) (slots_of (active s1)) 0 (tick s1))
    as [[a' q'] tk'] eqn:Hp.
  apply promote_spec in Hp
    as (popped & Hq & Htk & Hsl & Hmv & Hsz & Hnew & Hold & Hstop).
  exists popped. cbn [active queue tick]. cbn zeta in *.
  set (promoted := fresh (dom (active s1)) (queue_keys popped)) in *.
  assert (Hbatch : 0 < PROMOTE_BATCH) by done.
  unfold slots_of, len in *.
  split_and!; try done; try lia.
  destruct Hstop as [?|[?|?]]; [by left | right; left; lia | right; right; lia].
Qed.

Lemma maintain_len (time : nat → Z) (s : qstate) :
  len (active (_maintain_and_promote time s)) ≤ Z.max (len (active s)) MAX_ACTIVE.
Proof.
  destruct (maintain_spec time s) as (popped & _ & _ & Hsl & _ & Hsz & _).
  pose proof (expire_len time s) as Hle.
  cbn zeta in *. unfold slots_of in Hsl. lia.
Qed.

Lemma maintain_queue_suffix (time : nat → Z) (s : qstate) :
  ∃ popped, queue s = popped ++ queue (_maintain_and_promote time s).
Proof.
  destruct (maintain_spec time s) as (popped & Hq & _). by exists popped.
Qed.

Lemma maintain_capped (time : nat → Z) (s : qstate) :
  capped s → capped (_maintain_and_promote time s).
Proof.
  unfold capped. intros Hc. pose proof (maintain_len time s). lia.
Qed.

Lemma maintain_queue_nodup (time : nat → Z) (s : qstate) :
  queue_nodup s → queue_nodup (_maintain_and_promote time s).
Proof.
  unfold queue_nodup. destruct (maintain_queue_suffix time s) as [popped ->].
  unfold queue_keys. rewrite fmap_app. by intros (_ & _ & ?)%NoDup_app.
Qed.

Lemma maintain_at_most_once (time : nat → Z) (s : qstate) :
  at_most_once s → at_most_once (_maintain_and_promote time s).
Proof.
  intros [Hnd Hdj]. split; [by apply maintain_queue_nodup|].
  destruct (maintain_spec time s)
    as (popped & Hq & _ & _ & _ & _ & _ & Hold & _).
  cbn zeta in *. intros k Hk.
  unfold queue_nodup, never_both in *. rewrite Hq in Hnd, Hdj.
  unfold queue_keys in Hnd, Hdj. rewrite fmap_app in Hnd, Hdj.
  apply NoDup_app in Hnd as (_ & Hsep & _).
  rewrite Hold.
  - destruct (active (expire time s) !! k) as [ts|] eqn:Hex; [|done].
    apply expire_lookup in Hex as [Hact _].
    rewrite Hdj in Hact; [done|]. apply elem_of_app. by right.
  - intros [_ Hin]%fresh_not_seen. by apply (Hsep k).
Qed.

(** ** Positions and removal in the queue *)

Lemma position_from_None (pos : nat) (c t : string) (q : list entry) :
  position_from pos c t q = None ↔ (c, t) ∉ queue_keys q.
Proof.
  revert pos. induction q as [|[[c' t'] ts] q IH]; intros pos; cbn.
  - split; [intros _; apply not_elem_of_nil | done].
  - rewrite not_elem_of_cons.
    destruct (bool_decide (c' = c) && bool_decide (t' = t)) eqn:Hm.
    + apply andb_true_iff in Hm as [->%bool_decide_eq_true ->%bool_decide_eq_true].
      split; [done | by intros [? _]].
    + rewrite IH. split; [|by intros [_ ?]].
      intros Hq. split; [|done]. unfold entry_key; cbn. intros [= <- <-].
      rewrite !bool_decide_eq_true_2 in Hm by done. done.
Qed.

Lemma queue_position_None (c t : string) (q : list entry) :
  _queue_position c t q = None ↔ (c, t) ∉ queue_keys q.
Proof. apply position_from_None. Qed.

Lemma first_match_Some (c t : string) (q : list entry) (e : entry) :
  first_match c t q = Some e → entry_key e = (c, t) ∧ e ∈ q.
Proof.
  unfold first_match. destruct (list_find _ q) as [[i x]|] eqn:Hf; [|done].
  intros [= <-]. apply list_find_Some in Hf as (Hi & [Hc Ht] & _).
  split; [|by eapply list_elem_of_lookup_2].
  destruct x as [[c' t'] ts]; cbn in *. by subst.
Qed.

Lemma leave_queue_cons (c t : string) (e : entry) (q : list entry) :
  leave_queue c t (e :: q)
  = if decide (entry_key e = (c, t)) then q else e :: leave_queue c t q.
Proof.
  unfold leave_queue, first_match. cbn [list_find].
  destruct e as [[c' t'] ts]. unfold entry_key; cbn [fst snd].
  destruct (decide (c' = c ∧ t' = t)) as [[-> ->]|Hne].
  - cbn. rewrite !decide_True by done. done.
  - rewrite decide_False by (intros [= -> ->]; by apply Hne).
    rewrite <- option_fmap_compose.
    change (snd ∘ prod_map S id) with (@snd nat entry).
    fold (first_match c t q).
    destruct (first_match c t q) as [x|] eqn:Hx; cbn; [|done].
    apply first_match_Some in Hx as [Hkx _].
    rewrite decide_False.
    + by destruct (deque_remove x q).
    + intros <-. apply Hne. unfold entry_key in Hkx; cbn in Hkx.
      by injection Hkx.
Qed.

Lemma leave_queue_spec (c t : string) (q : list entry) :
  (((c, t) ∉ queue_keys q) ∧ leave_queue c t q = q) ∨
  (∃ q1 e q2, q = q1 ++ e :: q2 ∧ entry_key e = (c, t) ∧
              ((c, t) ∉ queue_keys q1) ∧ leave_queue c t q = q1 ++ q2).
Proof.
  induction q as [|e q IH].
  - left. split; [apply not_elem_of_nil | done].
  - rewrite leave_queue_cons. destruct (decide (entry_key e = (c, t))) as [He|He].
    + right. exists [], e, q. split_and!; try done. apply not_elem_of_nil.
    + destruct IH as [[Hnin Heq]|(q1 & e' & q2 & -> & He' & Hnin & Heq)].
      * left. rewrite Heq. split; [|done].
        cbn. apply not_elem_of_cons. by split.
      * right. exists (e :: q1), e', q2. rewrite Heq. split_and!; try done.
        cbn. apply not_elem_of_cons. by split.
Qed.

Lemma leave_queue_nodup (c t : string) (q : list entry) :
  NoDup (queue_keys q) → NoDup (queue_keys (leave_queue c t q)).
Proof.
  destruct (leave_queue_spec c t q)
    as [[_ ->]|(q1 & e & q2 & -> & _ & _ & ->)]; [done|].
  unfold queue_keys. rewrite !fmap_app, fmap_cons, !NoDup_app, NoDup_cons.
  intros (H1 & Hsep & _ & H2). split_and!; try done.
  intros k Hk Hk2. apply (Hsep k Hk). by right.
Qed.

Lemma leave_queue_subset (c t : string) (q : list entry) (k : key) :
  k ∈ queue_keys (leave_queue c t q) → k ∈ queue_keys q.
Proof.
  destruct (leave_queue_spec c t q)
    as [[_ ->]|(q1 & e & q2 & -> & _ & _ & ->)]; [done|].
  unfold queue_keys. rewrite !fmap_app, fmap_cons, !elem_of_app, elem_of_cons.
  tauto.
Qed.

Lemma leave_queue_gone (c t : string) (q : list entry) :
  NoDup (queue_keys q) → (c, t) ∉ queue_keys (leave_queue c t q).
Proof.
  destruct (leave_queue_spec c t q)
    as [[Hnin ->]|(q1 & e & q2 & -> & He & Hnin & ->)]; [done|].
  unfold queue_keys. rewrite !fmap_app, fmap_cons, !NoDup_app, NoDup_cons, He.
  intros (_ & _ & Hn2 & _). rewrite elem_of_app. tauto.
Qed.

(** ** One request preserves the invariants *)

Lemma insert_len_Some (a : gmap key Z) (k : key) (ts : Z) :
  is_Some (a !! k) → len (<[k := ts]> a) = len a.
Proof. intros H. unfold len. by rewrite map_size_insert_Some. Qed.

Lemma insert_len_None (a : gmap key Z) (k : key) (ts : Z) :
  ¬ is_Some (a !! k) → len (<[k := ts]> a) = len a + 1.
Proof.
  intros H. unfold len.
  rewrite map_size_insert_None by (by apply eq_None_not_Some). lia.
Qed.

Lemma delete_len (a : gmap key Z) (k : key) : len (delete k a) ≤ len a.
Proof. unfold len. apply inj_le, map_subseteq_size, delete_subseteq. Qed.

Lemma enter_logic_capped (time : nat → Z) (c t : string) (s1 : qstate) :
  capped s1 → capped (enter_logic time c t s1).2.
Proof.
  unfold capped, enter_logic. intros Hc.
  destruct (decide (is_Some (active s1 !! (c, t)))) as [Hin|Hin]; cbn.
  - by rewrite insert_len_Some.
  - case_bool_decide as Hlt; cbn.
    + rewrite insert_len_None by done. lia.
    + by destruct (_queue_position c t (queue s1)).
Qed.


Lemma heartbeat_logic_capped (time : nat → Z) (c t : string) (s1 : qstate) :
  capped s1 → capped (heartbeat_logic time c t s1).2.
Proof.
  unfold capped, heartbeat_logic. intros Hc.
  destruct (decide (is_Some (active s1 !! (c, t)))) as [Hin|Hin]; cbn.
  - by rewrite insert_len_Some.
  - by destruct (_queue_position c t (queue s1)).
Qed.

Lemma heartbeat_logic_queue (time : nat → Z) (c t : string) (s1 : qstate) :
  queue (heartbeat_logic time c t s1).2 = queue s1.
Proof.
  unfold heartbeat_logic.
  destruct (decide (is_Some (active s1 !! (c, t)))); cbn; [done|].
  by destruct (_queue_position c t (queue s1)).
Qed.

Lemma status_logic_state (c t : string) (s1 : qstate) :
  (status_logic c t s1).2 = s1.
Proof.
  unfold status_logic.
  destruct (decide (is_Some (active s1 !! (c, t)))); cbn; [done|].
  by destruct (_queue_position c t (queue s1)).
Qed.

(** The handlers, for well-formed ids, are their logic after the pass. *)

Lemma falsy_Some (x : string) : falsy (Some x) = false ↔ x ≠ EmptyString.
Proof. cbn. apply bool_decide_eq_false. Qed.

Lemma queue_enter_unfold (time : nat → Z) (c t : string) (s : qstate) :
  c ≠ EmptyString → t ≠ EmptyString →
  queue_enter time (Some c) (Some t) s
  = enter_logic time c t (_maintain_and_promote time s).
Proof.
  intros Hc%falsy_Some Ht%falsy_Some. unfold queue_enter, enter_logic.
  rewrite Hc, Ht. cbn [orb _now].
  destruct (decide _); [done|]. case_bool_decide; [done|].
  destruct (_queue_position c t (queue (_maintain_and_promote time s)))
    eqn:Hpos; cbn [queue active]; [by rewrite Hpos | done].
Qed.

Lemma queue_status_unfold (time : nat → Z) (c t : string) (s : qstate) :
  queue_status time c t s = status_logic c t (_maintain_and_promote time s).
Proof. done. Qed.

Lemma queue_heartbeat_unfold (time : nat → Z) (c t : string) (s : qstate) :
  c ≠ EmptyString → t ≠ EmptyString →
  queue_heartbeat time (Some c) (Some t) s
  = heartbeat_logic time c t (_maintain_and_promote time s).
Proof.
  intros Hc%falsy_Some Ht%falsy_Some. unfold queue_heartbeat, heartbeat_logic.
  by rewrite Hc, Ht.
Qed.

Lemma queue_leave_unfold (time : nat → Z) (c t : string) (s : qstate) :
  c ≠ EmptyString → t ≠ EmptyString →
  queue_leave time (Some c) (Some t) s
  = let s2 := _maintain_and_promote time (leave_remove c t s) in
    (ROk (len (active s2)) MAX_ACTIVE, s2).
Proof.
  intros Hc%falsy_Some Ht%falsy_Some. unfold queue_leave.
  by rewrite Hc, Ht.
Qed.

Lemma valid_ids_Some (c t : option string) (c' t' : string) :
  valid_ids c t = Some (c', t') →
  c = Some c' ∧ t = Some t' ∧ c' ≠ EmptyString ∧ t' ≠ EmptyString.
Proof.
  unfold valid_ids. destruct c as [c0|], t as [t0|]; try done.
  destruct (falsy (Some c0)) eqn:Hc; [done|].
  destruct (falsy (Some t0)) eqn:Ht; [done|].
  intros [= -> ->]. by apply falsy_Some in Hc, Ht.
Qed.

Lemma rejected_enter (time : nat → Z) (c t : option string) (s : qstate) :
  valid_ids c t = None → queue_enter time c t s = (RError400, s).
Proof.
  unfold valid_ids, queue_enter. destruct c, t; try done.
  by destruct (falsy _ || falsy _).
Qed.

Lemma rejected_heartbeat (time : nat → Z) (c t : option string) (s : qstate) :
  valid_ids c t = None → queue_heartbeat time c t s = (RError400, s).
Proof.
  unfold valid_ids, queue_heartbeat. destruct c, t; try done.
  by destruct (falsy _ || falsy _).
Qed.

Lemma rejected_leave (time : nat → Z) (c t : option string) (s : qstate) :
  valid_ids c t = None → queue_leave time c t s = (RError400, s).
Proof.
  unfold valid_ids, queue_leave. destruct c, t; try done.
  by destruct (falsy _ || falsy _).
Qed.

Lemma leave_remove_capped (c t : string) (s : qstate) :
  capped s → capped (leave_remove c t s).
Proof.
  unfold capped; cbn. pose proof (delete_len (active s) (c, t)). lia.
Qed.

Lemma step_capped (time : nat → Z) (o : op) (s : qstate) :
  capped s → capped (step time o s).2.
Proof.
  intros Hs. destruct o as [c t|c t|c t|c t]; cbn [step].
  - destruct (valid_ids c t) as [[c' t']|] eqn:Hv.
    + apply valid_ids_Some in Hv as (-> & -> & ? & ?).
      rewrite queue_enter_unfold by done.
      by apply enter_logic_capped, maintain_capped.
    + by rewrite rejected_enter.
  - rewrite queue_status_unfold, status_logic_state.
    by apply maintain_capped.
  - destruct (valid_ids c t) as [[c' t']|] eqn:Hv.
    + apply valid_ids_Some in Hv as (-> & -> & ? & ?).
      rewrite queue_heartbeat_unfold by done.
      by apply heartbeat_logic_capped, maintain_capped.
    + by rewrite rejected_heartbeat.
  - destruct (valid_ids c t) as [[c' t']|] eqn:Hv.
    + apply valid_ids_Some in Hv as (-> & -> & ? & ?).
      rewrite queue_leave_unfold by done. cbn.
      by apply maintain_capped, leave_remove_capped.
    + by rewrite rejected_leave.
Qed.


Lemma run_invariant (time : nat → Z) (P : qstate → Prop) :
  (∀ o s, P s → P (step time o s).2) →
  ∀ ops s, P s → P (run time ops s).
Proof.
  intros Hstep ops. unfold run.
  induction ops as [|o ops IH]; intros s Hs; cbn [foldl]; [done|].
  by apply IH, Hstep.
Qed.

Lemma maintain_no_new_keys (time : nat → Z) (s : qstate) (k : key) :
  is_Some (active (_maintain_and_promote time s) !! k) →
  is_Some (active s !! k) ∨ k ∈ queue_keys (queue s).
Proof.
  destruct (maintain_spec time s)
    as (popped & Hq & _ & _ & _ & _ & _ & Hold & _).
  cbn zeta in *. intros [ts Hk].
  destruct (decide (k ∈ fresh (dom (active (expire time s))) (queue_keys popped)))
    as [Hin|Hin].
  - right. apply fresh_not_seen in Hin as [_ Hin]. rewrite Hq.
    unfold queue_keys in *. rewrite fmap_app. apply elem_of_app. by left.
  - left. rewrite Hold in Hk by done. apply expire_lookup in Hk as [Hk _]. eauto.
Qed.

Lemma maintain_queue_subset (time : nat → Z) (s : qstate) (k : key) :
  k ∈ queue_keys (queue (_maintain_and_promote time s)) →
  k ∈ queue_keys (queue s).
Proof.
  destruct (maintain_queue_suffix time s) as [popped Hq]. intros Hk.
  rewrite Hq. unfold queue_keys in *. rewrite fmap_app, elem_of_app. by right.
Qed.

Lemma leave_remove_at_most_once (c t : string) (s : qstate) :
  at_most_once s → at_most_once (leave_remove c t s).
Proof.
  intros [Hnd Hdj]. split.
  - by apply leave_queue_nodup.
  - intros k Hk%leave_queue_subset. cbn.
    apply lookup_delete_None. right. by apply Hdj.
Qed.


Lemma enter_logic_count (time : nat → Z) (c t : string) (s1 : qstate) :
  n_active_of (enter_logic time c t s1).1
  = Some (len (active (enter_logic time c t s1).2)).
Proof.
  unfold enter_logic. destruct (decide _); [done|].
  case_bool_decide; [done|]. by destruct (_queue_position c t (queue s1)).
Qed.

Lemma status_logic_count (c t : string) (s1 : qstate) :
  n_active_of (status_logic c t s1).1
  = Some (len (active (status_logic c t s1).2)).
Proof.
  unfold status_logic. destruct (decide _); [done|].
  by destruct (_queue_position c t (queue s1)).
Qed.

Lemma heartbeat_logic_count (time : nat → Z) (c t : string) (s1 : qstate) :
  n_active_of (heartbeat_logic time c t s1).1
  = Some (len (active (heartbeat_logic time c t s1).2)).
Proof.
  unfold heartbeat_logic. destruct (decide _); [done|].
  by destruct (_queue_position c t (queue s1)).
Qed.

(** ** Statements about the admission queue *)

(** C1.  From the empty state, after any sequence of enter, status,
    heartbeat and leave requests and for any behaviour of the clock, the
    active set has at most [MAX_ACTIVE] entries.  The two mechanisms that
    add entries respect the bound: [queue_enter] makes a key active that
    the maintenance pass left inactive only if fewer than [MAX_ACTIVE]
    sessions were active at that point, and the maintenance pass never
    takes the active set beyond [MAX_ACTIVE] unless it already was. *)
Theorem active_never_exceeds_max (time : nat → Z) :
  (∀ ops, len (active (run time ops init)) ≤ MAX_ACTIVE) ∧
  (∀ c t s,
     let s1 := _maintain_and_promote time s in
     let s2 := (queue_enter time (Some c) (Some t) s).2 in
     c ≠ EmptyString → t ≠ EmptyString →
     active s1 !! (c, t) = None → is_Some (active s2 !! (c, t)) →
     len (active s1) < MAX_ACTIVE ∧ len (active s2) = len (active s1) + 1) ∧
  (∀ s, len (active (_maintain_and_promote time s))
        ≤ Z.max (len (active (expire time s))) MAX_ACTIVE).
Proof.
  split_and!.
  - intros ops. apply (run_invariant time capped); [apply step_capped|].
    unfold capped, init, len; cbn. by rewrite map_size_empty.
  - intros c t s s1 s2 Hc Ht Hout Hin. subst s2.
    rewrite queue_enter_unfold in Hin |- * by done. fold s1 in Hin |- *.
    unfold enter_logic in *. rewrite Hout in *.
    rewrite decide_False in Hin |- * by (by intros [? ?]).
    case_bool_decide as Hlt; cbn in *.
    + split; [done|]. apply insert_len_None. rewrite Hout. by intros [? ?].
    + destruct (_queue_position c t (queue s1)); cbn in Hin;
        rewrite Hout in Hin; by destruct Hin.
  - intros s.
    destruct (maintain_spec time s) as (popped & _ & _ & Hsl & _ & Hsz & _).
    cbn zeta in *. unfold slots_of in Hsl. lia.
Qed.




(** C7.  One maintenance pass, from any state [s].  It first removes from
    the active set exactly the entries whose age at the reading [now]
    exceeds [HEARTBEAT_TIMEOUT], leaving the queue alone.  It then pops a
    prefix [popped] of the queue: the keys promoted are, in queue order,
    the popped keys that were not active when popped ([fresh]); a popped
    key that was active is dropped and keeps its old timestamp.  There are
    at most [PROMOTE_BATCH] promotions and at most as many as free slots;
    the i-th promoted key is stored with the i-th clock reading made
    during promotion; all other entries are untouched; and the loop stops
    only when the queue is empty, the active set is full, or the batch is
    used up. *)
Theorem maintenance_pass (time : nat → Z) (s : qstate) :
  let now := time (tick s) in
  let s1 := expire time s in
  let s' := _maintain_and_promote time s in
  (∀ k ts, active s1 !! k = Some ts ↔
           active s !! k = Some ts ∧ ¬ (HEARTBEAT_TIMEOUT < now - ts)) ∧
  queue s1 = queue s ∧
  ∃ popped,
    let promoted := fresh (dom (active s1)) (queue_keys popped) in
    queue s = popped ++ queue s' ∧
    NoDup promoted ∧
    (∀ k, k ∈ promoted ↔ (k ∈ queue_keys popped) ∧ active s1 !! k = None) ∧
    Z.of_nat (length promoted) ≤ PROMOTE_BATCH ∧
    Z.of_nat (length promoted) ≤ Z.max 0 (MAX_ACTIVE - len (active s1)) ∧
    len (active s') = len (active s1) + Z.of_nat (length promoted) ∧
    tick s' = (tick s1 + length promoted)%nat ∧
    (∀ i k, promoted !! i = Some k →
            active s' !! k = Some (time ((tick s1 + i)%nat))) ∧
    (∀ k, k ∉ promoted → active s' !! k = active s1 !! k) ∧
    (queue s' = [] ∨ MAX_ACTIVE ≤ len (active s')
     ∨ Z.of_nat (length promoted) = PROMOTE_BATCH).
Proof.
  intros now s1 s'. split_and!.
  - intros k ts. apply expire_lookup.
  - done.
  - destruct (maintain_spec time s)
      as (popped & Hq & Htk & Hsl & Hmv & Hsz & Hnew & Hold & Hstop).
    exists popped. cbn zeta in *. fold s1 s' in Hq, Htk, Hsl, Hmv, Hsz, Hnew, Hold, Hstop |- *.
    split_and!; try done.
    + apply fresh_NoDup.
    + intros k. split.
      * intros [Hns Hin]%fresh_not_seen. split; [done|].
        by apply not_elem_of_dom.
      * intros [Hin Hno]. apply fresh_complete; [done|].
        by apply not_elem_of_dom.
Qed.

(** C8, as stated, fails for leave.  With ten active sessions and one
    waiter, leave of an active session removes it first and runs the pass
    afterwards, which promotes the waiter: the answer counts 10 active.
    Had the pass run first, it would have found no free slot, and the
    answer would count 9. *)
Lemma leave_is_not_maintenance_first :
  queue_leave clock_still (Some "c"%string) (Some "1"%string)
    (run clock_still (fill_ten ++ [ent "q1"%string]) init)
  ≠ leave_maintenance_first clock_still "c"%string "1"%string
      (run clock_still (fill_ten ++ [ent "q1"%string]) init).
Proof.
  intros H. apply (f_equal (λ r, n_active_of r.1)) in H.
  vm_compute in H. discriminate H.
Qed.

(** C8, amended.  For well-formed ids: enter, status and heartbeat run the
    maintenance pass first and apply their own logic to the state it
    leaves; leave removes the key from the active set and the queue first
    and runs the maintenance pass afterwards.  In all four the count in
    the answer is the size of the active set of the final state, hence
    computed after maintenance. *)
Theorem maintenance_then_logic (time : nat → Z) (c t : string) (s : qstate) :
  c ≠ EmptyString → t ≠ EmptyString →
  let m := _maintain_and_promote time in
  queue_enter time (Some c) (Some t) s = enter_logic time c t (m s) ∧
  queue_status time c t s = status_logic c t (m s) ∧
  queue_heartbeat time (Some c) (Some t) s = heartbeat_logic time c t (m s) ∧
  queue_leave time (Some c) (Some t) s
    = (ROk (len (active (m (leave_remove c t s)))) MAX_ACTIVE,
       m (leave_remove c t s)) ∧
  (∀ r, r ∈ [queue_enter time (Some c) (Some t) s;
             queue_status time c t s;
             queue_heartbeat time (Some c) (Some t) s;
             queue_leave time (Some c) (Some t) s] →
        n_active_of r.1 = Some (len (active r.2))).
Proof.
  intros Hc Ht m.
  rewrite queue_enter_unfold, queue_status_unfold, queue_heartbeat_unfold,
    queue_leave_unfold by done.
  split_and!; try done.
  intros r Hr. repeat (apply elem_of_cons in Hr as [->|Hr]).
  - apply enter_logic_count.
  - apply status_logic_count.
  - apply heartbeat_logic_count.
  - done.
  - by apply elem_of_nil in Hr.
Qed.

Lemma maintenance_then_logic_witness :
  "c"%string ≠ EmptyString ∧ "1"%string ≠ EmptyString ∧
  queue_enter clock_still (Some "c"%string) (Some "1"%string) init
  = enter_logic clock_still "c"%string "1"%string
      (_maintain_and_promote clock_still init).
Proof.
  split_and!; [discriminate | discriminate |].
  apply (maintenance_then_logic clock_still "c"%string "1"%string init);
    discriminate.
Defined.

(** C9.  For a well-formed key and any state, leave answers
    [{"ok": true, ...}] with the count of the final state.  It deletes the
    key from the active set, removes the first queue entry with that key
    (and nothing else), then runs the maintenance pass.  A second leave in
    a row, or a leave of a key in neither structure, is answered the same
    way.  If no key was queued twice the key is in neither structure
    afterwards, and if no key appeared twice across the two structures
    this is still so afterwards, also after the second call. *)
Theorem leave_always_succeeds (time : nat → Z) (c t : string) (s : qstate) :
  c ≠ EmptyString → t ≠ EmptyString →
  let leave := queue_leave time (Some c) (Some t) in
  let s1 := leave_remove c t s in
  let s' := (leave s).2 in
  (leave s).1 = ROk (len (active s')) MAX_ACTIVE ∧
  s' = _maintain_and_promote time s1 ∧
  active s1 = delete (c, t) (active s) ∧
  ((((c, t) ∉ queue_keys (queue s)) ∧ queue s1 = queue s) ∨
   (∃ q1 e q2, queue s = q1 ++ e :: q2 ∧ entry_key e = (c, t) ∧
               ((c, t) ∉ queue_keys q1) ∧ queue s1 = q1 ++ q2)) ∧
  (leave s').1 = ROk (len (active (leave s').2)) MAX_ACTIVE ∧
  (active s !! (c, t) = None → ((c, t) ∉ queue_keys (queue s)) →
   s1 = s) ∧
  (queue_nodup s →
   active s' !! (c, t) = None ∧ ((c, t) ∉ queue_keys (queue s'))) ∧
  (at_most_once s → at_most_once s' ∧ at_most_once (leave s').2).
Proof.
  intros Hc Ht leave s1 s'. subst leave s'.
  rewrite !queue_leave_unfold by done. cbn [fst snd]. fold s1.
  assert (Hgone : queue_nodup s →
    active (_maintain_and_promote time s1) !! (c, t) = None ∧
    ((c, t) ∉ queue_keys (queue (_maintain_and_promote time s1)))).
  { intros Hnd.
    assert (Hq : (c, t) ∉ queue_keys (queue s1)) by (by apply leave_queue_gone).
    split.
    - apply eq_None_not_Some.
      intros [Ha|Hin]%maintain_no_new_keys; [|done].
      cbn in Ha. rewrite lookup_delete_eq in Ha. by destruct Ha.
    - by intros ?%maintain_queue_subset. }
  split_and!; try done.
  - apply leave_queue_spec.
  - intros Ha Hq. subst s1. unfold leave_remove.
    rewrite delete_id by done.
    destruct (leave_queue_spec c t (queue s))
      as [[_ ->]|(q1 & e & q2 & Heq & He & _ & _)]; [by destruct s|].
    exfalso. apply Hq. rewrite Heq. unfold queue_keys.
    rewrite fmap_app, fmap_cons, He. apply elem_of_app. right. by left.
  - intros Hs.
    assert (Hs' : at_most_once (_maintain_and_promote time s1))
      by (by apply maintain_at_most_once, leave_remove_at_most_once).
    split; [done|].
    by apply maintain_at_most_once, leave_remove_at_most_once.
Qed.

Lemma leave_always_succeeds_witness :
  "c"%string ≠ EmptyString ∧ "9"%string ≠ EmptyString ∧
  (queue_leave clock_still (Some "c"%string) (Some "9"%string) init).1
  = ROk (len (active
           (queue_leave clock_still (Some "c"%string) (Some "9"%string) init).2))
        MAX_ACTIVE.
Proof.
  split_and!; [discriminate | discriminate |].
  apply (leave_always_succeeds clock_still "c"%string "9"%string init);
    discriminate.
Defined.

End QueueFacts.

(* ===================================================================== *)
Module CacheFacts.
Import Cache.

Lemma computations_app (l1 l2 : list call) :
  computations (l1 ++ l2) = (computations l1 + computations l2)%nat.
Proof.
  induction l1 as [|c l1 IH]; [done|]. destruct c; cbn; by rewrite IH.
Qed.

Lemma fetches_app (l1 l2 : list call) :
  fetches (l1 ++ l2) = (fetches l1 + fetches l2)%nat.
Proof.
  induction l1 as [|c l1 IH]; [done|]. destruct c; cbn; by rewrite IH.
Qed.

Lemma py_get_is_dict (obj : value) (k : string) (dflt v : value) :
  py_get obj k dflt = inr v → is_none obj = false.
Proof. by destruct obj. Qed.

Section Facts.

Context {W : Type}.
Variable fetch0 : W → result value * W.
Variable compute0 : value → W → result value * W.
Variable time0 : W → Z * W.
Variable py_str : value → string.

Abbreviation goc := (_get_or_compute fetch0 compute0 time0 py_str).
Abbreviation cas := (_compute_and_store fetch0 compute0 time0 py_str).
Abbreviation key := (key_of py_str).

(** Unfolding of the monadic bodies. *)
Ltac run_body :=
  unfold _get_or_compute, _compute_and_store, probe, try_except, mbind,
    M_bind, mret, M_ret, fetch, compute, lift, read, set_data,
    _make_event_key, set_event_key, now, set_ts, log;
  cbn [world store calls data event_key ts].

Ltac step_with H := rewrite ?H; cbn [world store calls data event_key ts].

(** ** [_compute_and_store] *)

Lemma cas_ok (st : mstate) ev w1 d w2 meta k t w3 :
  fetch0 (world st) = (inr ev, w1) →
  compute0 ev w1 = (inr d, w2) →
  py_get d "meta" (VDict []) = inr meta →
  key meta = inr k →
  time0 w2 = (t, w3) →
  cas st = (inr d, MState w3 (CacheEntry d (Some k) t)
                     (calls st ++ [CallFetch; CallCompute ev; CallKey meta])).
Proof.
  intros Hf Hc Hm Hk Ht. run_body.
  step_with Hf. step_with Hc. step_with Hm. step_with Hk. step_with Ht.
  by rewrite <- !app_assoc.
Qed.

Lemma cas_fetch_fails (st : mstate) e w1 :
  fetch0 (world st) = (inl e, w1) →
  cas st = (inl e, MState w1 (store st) (calls st ++ [CallFetch])).
Proof. intros Hf. run_body. by step_with Hf. Qed.

Lemma cas_compute_fails (st : mstate) ev w1 e w2 :
  fetch0 (world st) = (inr ev, w1) →
  compute0 ev w1 = (inl e, w2) →
  cas st = (inl e, MState w2 (store st)
                     (calls st ++ [CallFetch; CallCompute ev])).
Proof.
  intros Hf Hc. run_body. step_with Hf. step_with Hc.
  by rewrite <- !app_assoc.
Qed.

(** The forced and the first-ever computation are [_compute_and_store]. *)
Lemma goc_mandatory (force : bool) (st : mstate) :
  force = true ∨ is_none (data (store st)) = true →
  goc force st = cas st.
Proof.
  intros [->|Hn]; [done|]. destruct force; [done|].
  cbv [_get_or_compute mbind M_bind read]. rewrite Hn. by rewrite Hn.
Qed.

(** ** The staleness probe *)

Lemma key_nonempty (meta : value) (k : string) :
  key meta = inr k → k ≠ EmptyString.
Proof.
  unfold key_of.
  destruct (py_get meta "time_utc" VNone) as [|u]; [done|].
  destruct (if truthy u then _ else _) as [|when]; [done|].
  destruct (py_get meta "lat" VNone); [done|].
  destruct (py_get meta "lon" VNone); [done|].
  destruct (py_get meta "mag" VNone); [done|].
  destruct (py_get meta "depth_km" VNone); [done|].
  intros [= <-]. by destruct (py_str when).
Qed.

Lemma goc_probe_fetch_fails (st : mstate) e w1 :
  is_none (data (store st)) = false →
  fetch0 (world st) = (inl e, w1) →
  goc false st = (inr (data (store st)),
                  MState w1 (store st) (calls st ++ [CallFetch])).
Proof.
  intros Hd Hf. run_body. step_with Hd. by step_with Hf.
Qed.

Lemma goc_probe_falsy (st : mstate) ev w1 :
  is_none (data (store st)) = false →
  fetch0 (world st) = (inr ev, w1) →
  truthy ev = false →
  goc false st = (inr (data (store st)),
                  MState w1 (store st) (calls st ++ [CallFetch])).
Proof.
  intros Hd Hf Hev. run_body. step_with Hd. step_with Hf. by step_with Hev.
Qed.

Lemma goc_probe_same (st : mstate) ev w1 meta k :
  is_none (data (store st)) = false →
  fetch0 (world st) = (inr ev, w1) →
  truthy ev = true →
  probe_meta ev = inr meta →
  key meta = inr k →
  event_key (store st) = Some k →
  goc false st = (inr (data (store st)),
                  MState w1 (store st) (calls st ++ [CallFetch; CallKey meta])).
Proof.
  intros Hd Hf Hev Hm Hk Hs. run_body.
  step_with Hd. step_with Hf. step_with Hev. step_with Hm. step_with Hk.
  rewrite Hs, (bool_decide_eq_true_2 (Some k = Some k)) by done.
  rewrite andb_false_r. cbn. by rewrite <- !app_assoc.
Qed.

Lemma goc_probe_changed (st : mstate) ev w1 meta k d w2 t w3 :
  is_none (data (store st)) = false →
  fetch0 (world st) = (inr ev, w1) →
  truthy ev = true →
  probe_meta ev = inr meta →
  key meta = inr k →
  event_key (store st) ≠ Some k →
  compute0 ev w1 = (inr d, w2) →
  time0 w2 = (t, w3) →
  goc false st = (inr d, MState w3 (CacheEntry d (Some k) t)
                    (calls st ++ [CallFetch; CallKey meta; CallCompute ev])).
Proof.
  intros Hd Hf Hev Hm Hk Hs Hc Ht. run_body.
  step_with Hd. step_with Hf. step_with Hev. step_with Hm. step_with Hk.
  rewrite (bool_decide_eq_false_2 (k = EmptyString))
    by (by eapply key_nonempty).
  rewrite (bool_decide_eq_false_2 (Some k = event_key (store st)))
    by congruence.
  cbn [negb andb world store calls]. step_with Hc. step_with Ht.
  by rewrite <- !app_assoc.
Qed.

Lemma goc_probe_changed_fails (st : mstate) ev w1 meta k e w2 :
  is_none (data (store st)) = false →
  fetch0 (world st) = (inr ev, w1) →
  truthy ev = true →
  probe_meta ev = inr meta →
  key meta = inr k →
  event_key (store st) ≠ Some k →
  compute0 ev w1 = (inl e, w2) →
  goc false st = (inr (data (store st)),
                  MState w2 (store st)
                    (calls st ++ [CallFetch; CallKey meta; CallCompute ev])).
Proof.
  intros Hd Hf Hev Hm Hk Hs Hc. run_body.
  step_with Hd. step_with Hf. step_with Hev. step_with Hm. step_with Hk.
  rewrite (bool_decide_eq_false_2 (k = EmptyString))
    by (by eapply key_nonempty).
  rewrite (bool_decide_eq_false_2 (Some k = event_key (store st)))
    by congruence.
  cbn [negb andb world store calls]. step_with Hc.
  by rewrite <- !app_assoc.
Qed.

(** ** Statements about the compute cache *)

(** C3, amended.  A failure of a collaborator during a forced or a
    first-ever computation reaches the caller as that same exception, and
    the cache entry is left as it was: whether the fetch fails, or the
    fetch succeeds and the overlay computation fails.  During the
    recomputation that follows a changed fingerprint, the overlay
    computation runs inside the [try] of the staleness check: its failure
    is swallowed and the cached document is returned, the entry being
    left as it was. *)
Theorem collaborator_failures (st : mstate) (e : exn) :
  (∀ force, force = true ∨ is_none (data (store st)) = true →
     (∀ w1, fetch0 (world st) = (inl e, w1) →
        goc force st
        = (inl e, MState w1 (store st) (calls st ++ [CallFetch]))) ∧
     (∀ ev w1 w2, fetch0 (world st) = (inr ev, w1) →
        compute0 ev w1 = (inl e, w2) →
        goc force st
        = (inl e, MState w2 (store st)
                    (calls st ++ [CallFetch; CallCompute ev])))) ∧
  (∀ ev w1 meta k w2,
     is_none (data (store st)) = false →
     fetch0 (world st) = (inr ev, w1) →
     truthy ev = true →
     probe_meta ev = inr meta →
     key meta = inr k →
     event_key (store st) ≠ Some k →
     compute0 ev w1 = (inl e, w2) →
     goc false st
     = (inr (data (store st)),
        MState w2 (store st)
          (calls st ++ [CallFetch; CallKey meta; CallCompute ev]))).
Proof.
  split.
  - intros force Hm. rewrite (goc_mandatory force st Hm). split.
    + intros w1. apply cas_fetch_fails.
    + intros ev w1 w2. apply cas_compute_fails.
  - intros ev w1 meta k w2. apply goc_probe_changed_fails.
Qed.

(** C4.  (1) With an entry in the cache, a call without [force] whose
    fetched event has the stored fingerprint returns the stored document,
    leaves the entry as it was and makes no overlay computation.  (2) From
    an empty cache, two calls without [force] in a row, the event being
    the same at both fetches and its fingerprint being that of the
    computed document's [meta], make one overlay computation in all and
    return the same document.  (3) With an entry in the cache, a fetched
    event with another fingerprint is recomputed from that very event,
    after one fetch only, and the entry is replaced. *)
Theorem unchanged_event_reuses_entry :
  (∀ (st : mstate) ev w1 meta k,
     is_none (data (store st)) = false →
     fetch0 (world st) = (inr ev, w1) →
     truthy ev = true →
     probe_meta ev = inr meta →
     key meta = inr k →
     event_key (store st) = Some k →
     goc false st
     = (inr (data (store st)),
        MState w1 (store st) (calls st ++ [CallFetch; CallKey meta]))) ∧
  (∀ (st : mstate) ev w1 d w2 dmeta k t w3 w4 pmeta,
     is_none (data (store st)) = true →
     fetch0 (world st) = (inr ev, w1) →
     compute0 ev w1 = (inr d, w2) →
     py_get d "meta" (VDict []) = inr dmeta →
     key dmeta = inr k →
     time0 w2 = (t, w3) →
     fetch0 w3 = (inr ev, w4) →
     truthy ev = true →
     probe_meta ev = inr pmeta →
     key pmeta = inr k →
     let r1 := goc false st in
     let r2 := goc false r1.2 in
     r1.1 = inr d ∧ r2.1 = inr d ∧
     store r2.2 = store r1.2 ∧
     calls r2.2 = calls st ++ [CallFetch; CallCompute ev; CallKey dmeta;
                               CallFetch; CallKey pmeta] ∧
     computations (calls r2.2) = S (computations (calls st))) ∧
  (∀ (st : mstate) ev w1 meta k d w2 t w3,
     is_none (data (store st)) = false →
     fetch0 (world st) = (inr ev, w1) →
     truthy ev = true →
     probe_meta ev = inr meta →
     key meta = inr k →
     event_key (store st) ≠ Some k →
     compute0 ev w1 = (inr d, w2) →
     time0 w2 = (t, w3) →
     let r := goc false st in
     r = (inr d, MState w3 (CacheEntry d (Some k) t)
                   (calls st ++ [CallFetch; CallKey meta; CallCompute ev])) ∧
     fetches (calls r.2) = S (fetches (calls st))).
Proof.
  split_and!.
  - apply goc_probe_same.
  - intros st ev w1 d w2 dmeta k t w3 w4 pmeta Hn Hf Hc Hm Hk Ht Hf' Hev Hpm Hk'
           r1 r2.
    assert (H1 : r1 = (inr d, MState w3 (CacheEntry d (Some k) t)
                (calls st ++ [CallFetch; CallCompute ev; CallKey dmeta]))).
    { subst r1. rewrite goc_mandatory by (by right). by eapply cas_ok. }
    assert (H2 : r2 = (inr d, MState w4 (CacheEntry d (Some k) t)
                ((calls st ++ [CallFetch; CallCompute ev; CallKey dmeta])
                 ++ [CallFetch; CallKey pmeta]))).
    { subst r2. rewrite H1. cbn [snd].
      erewrite goc_probe_same; [done| |done..].
      cbn. by eapply py_get_is_dict. }
    rewrite H1, H2. cbn [fst snd store calls].
    split_and!; try done.
    + by rewrite <- app_assoc.
    + rewrite !computations_app. cbn. lia.
  - intros st ev w1 meta k d w2 t w3 Hd Hf Hev Hm Hk Hs Hc Ht r. subst r.
    erewrite goc_probe_changed by done. split; [done|].
    cbn [snd calls]. rewrite fetches_app. cbn. lia.
Qed.

(** C5.  Whatever the cache holds, a forced call whose fetch and overlay
    computation succeed (the document being a dict whose [meta] yields a
    key) makes one fetch and one overlay computation, returns the new
    document and replaces the three fields of the entry. *)
Theorem forced_refresh (st : mstate) ev w1 d w2 meta k t w3 :
  fetch0 (world st) = (inr ev, w1) →
  compute0 ev w1 = (inr d, w2) →
  py_get d "meta" (VDict []) = inr meta →
  key meta = inr k →
  time0 w2 = (t, w3) →
  let r := goc true st in
  r.1 = inr d ∧
  store r.2 = CacheEntry d (Some k) t ∧
  calls r.2 = calls st ++ [CallFetch; CallCompute ev; CallKey meta] ∧
  fetches (calls r.2) = S (fetches (calls st)) ∧
  computations (calls r.2) = S (computations (calls st)).
Proof.
  intros Hf Hc Hm Hk Ht r. subst r.
  rewrite goc_mandatory by (by left).
  erewrite cas_ok by done. cbn [fst snd store calls].
  rewrite fetches_app, computations_app. cbn. split_and!; try done; lia.
Qed.

(** C6.  With an entry in the cache, a call without [force] whose fetch
    raises returns the cached document as a normal result and leaves the
    three fields of the entry as they were. *)
Theorem probe_failure_serves_cache (st : mstate) (e : exn) w1 :
  is_none (data (store st)) = false →
  fetch0 (world st) = (inl e, w1) →
  let r := goc false st in
  r.1 = inr (data (store st)) ∧
  store r.2 = store st ∧
  calls r.2 = calls st ++ [CallFetch].
Proof.
  intros Hd Hf r. subst r. by erewrite goc_probe_fetch_fails.
Qed.

(** C10.  With an entry in the cache, a call without [force] whose fetch
    succeeds and reports [None] returns the cached document and leaves the
    entry as it was; the only call made is the fetch: no key is derived
    and no overlay is computed. *)
Theorem no_event_serves_cache (st : mstate) w1 :
  is_none (data (store st)) = false →
  fetch0 (world st) = (inr VNone, w1) →
  let r := goc false st in
  r.1 = inr (data (store st)) ∧
  store r.2 = store st ∧
  calls r.2 = calls st ++ [CallFetch].
Proof.
  intros Hd Hf r. subst r. by erewrite goc_probe_falsy.
Qed.

End Facts.

(** ** The statements at concrete inputs *)

(** C3, as stated, fails for the recomputation that follows a changed
    fingerprint: the cache holds the overlay of [E1], the fetch reports
    [E2], whose fingerprint differs, and the overlay computation raises;
    the call returns the cached document and no exception. *)
Lemma stale_recompute_failure_is_swallowed :
  let st := warm [inr E2] in
  let r := _get_or_compute scripted_fetch render_fails (clock_at 9) show
             false st in
  event_key (store st) = Some "2024-05-01T10:00:00Z|19.5|99.1|4.2|10"%string ∧
  probe_key show E2 = inr "2024-05-02T03:30:00Z|18.7|98.9|3.1|5"%string ∧
  render_fails E2 [] = (inl (Failure "render failed"), []) ∧
  computations (calls r.2) = S (computations (calls st)) ∧
  r.1 = inr (data (store st)) ∧
  (∀ e, r.1 ≠ inl e).
Proof.
  vm_compute. split_and!; try reflexivity. intros e; discriminate.
Qed.

Lemma collaborator_failures_witness :
  let st := MState [inl (Failure "timeout")] empty_cache [] in
  is_none (data (store st)) = true ∧
  _get_or_compute scripted_fetch render (clock_at 7) show false st
  = (inl (Failure "timeout"), MState [] empty_cache [CallFetch]).
Proof.
  split; [reflexivity|].
  apply (collaborator_failures scripted_fetch render (clock_at 7) show
           (MState [inl (Failure "timeout")] empty_cache [])
           (Failure "timeout")); [right|]; reflexivity.
Defined.

Lemma unchanged_event_reuses_entry_witness :
  let st := MState [inr E1; inr E1] empty_cache [] in
  let goc := _get_or_compute scripted_fetch render (clock_at 7) show false in
  computations (calls (goc (goc st).2).2) = 1%nat.
Proof.
  pose proof (unchanged_event_reuses_entry scripted_fetch render (clock_at 7)
                show) as (_ & Htwice & _).
  eapply (Htwice (MState [inr E1; inr E1] empty_cache []));
    vm_compute; reflexivity.
Defined.

Lemma forced_refresh_witness :
  let st := warm [inr E2] in
  (_get_or_compute scripted_fetch render (clock_at 9) show true st).1
  = (render E2 []).1.
Proof.
  eapply (forced_refresh scripted_fetch render (clock_at 9) show
            (warm [inr E2])); vm_compute; reflexivity.
Defined.

Lemma probe_failure_serves_cache_witness :
  let st := warm [inl (Failure "timeout")] in
  is_none (data (store st)) = false ∧
  (_get_or_compute scripted_fetch render (clock_at 9) show false st).1
  = inr (data (store st)).
Proof.
  split; [reflexivity|].
  eapply (probe_failure_serves_cache scripted_fetch render (clock_at 9) show
            (warm [inl (Failure "timeout")])); reflexivity.
Defined.

Lemma no_event_serves_cache_witness :
  let st := warm [inr VNone] in
  is_none (data (store st)) = false ∧
  calls (_get_or_compute scripted_fetch render (clock_at 9) show false st).2
  = calls st ++ [CallFetch].
Proof.
  split; [reflexivity|].
  eapply (no_event_serves_cache scripted_fetch render (clock_at 9) show
            (warm [inr VNone])); reflexivity.
Defined.

End CacheFacts.

(* ===================================================================== *)
Module QueueMore.
Import Queue QueueFacts.

(** ** [_queue_position] *)

Lemma position_from_Some (pos : nat) (c t : string) (q : list entry) (p : nat) :
  position_from pos c t q = Some p ↔
  ∃ q1 e q2, q = q1 ++ e :: q2 ∧ entry_key e = (c, t) ∧
             ((c, t) ∉ queue_keys q1) ∧ p = (pos + length q1)%nat.
Proof.
  revert pos. induction q as [|[[c' t'] ts] q IH]; intros pos; cbn.
  - split; [done|]. intros (q1 & e & q2 & Hq & _). by destruct q1.
  - destruct (bool_decide (c' = c) && bool_decide (t' = t)) eqn:Hm.
    + apply andb_true_iff in Hm as [->%bool_decide_eq_true ->%bool_decide_eq_true].
      split.
      * intros [= <-]. exists [], (c, t, ts), q.
        split_and!; [done | done | apply not_elem_of_nil | cbn; lia].
      * intros (q1 & e & q2 & Hq & He & Hnin & ->).
        destruct q1 as [|e1 q1]; [cbn; f_equal; lia|].
        injection Hq as <- _. exfalso. apply Hnin. by left.
    + assert (Hne : (c', t') ≠ (c, t)).
      { intros [= -> ->]. by rewrite !bool_decide_eq_true_2 in Hm. }
      rewrite IH. split.
      * intros (q1 & e & q2 & -> & He & Hnin & ->).
        exists ((c', t', ts) :: q1), e, q2. split_and!; try done.
        -- cbn. apply not_elem_of_cons. by split.
        -- cbn. lia.
      * intros (q1 & e & q2 & Hq & He & Hnin & ->).
        destruct q1 as [|e1 q1].
        -- injection Hq as <- _. by destruct Hne.
        -- injection Hq as <- ->. exists q1, e, q2. split_and!; try done.
           ++ cbn in Hnin. by apply not_elem_of_cons in Hnin as [_ ?].
           ++ cbn. lia.
Qed.

(** X1.  [_queue_position] answers [None] exactly when no entry of the
    queue carries the key, and otherwise the 1-based rank of the first
    entry that does; the rank is at most the length of the queue. *)
Theorem queue_position_is_first_rank (c t : string) (q : list entry) :
  (_queue_position c t q = None ↔ (c, t) ∉ queue_keys q) ∧
  (∀ p, _queue_position c t q = Some p ↔
        ∃ q1 e q2, q = q1 ++ e :: q2 ∧ entry_key e = (c, t) ∧
                   ((c, t) ∉ queue_keys q1) ∧ p = S (length q1)) ∧
  (∀ p, _queue_position c t q = Some p → (1 ≤ p ≤ length q)%nat).
Proof.
  split_and!.
  - apply queue_position_None.
  - intros p. unfold _queue_position. rewrite position_from_Some.
    by setoid_rewrite Nat.add_1_l.
  - intros p. unfold _queue_position. rewrite position_from_Some.
    intros (q1 & e & q2 & -> & _ & _ & ->). rewrite length_app. cbn. lia.
Qed.

(** ** Requests with a missing or empty id *)


(** ** What the maintenance pass keeps and drops *)

Lemma maintain_keeps_fresh (time : nat → Z) (s : qstate) (k : key) (ts : Z) :
  active s !! k = Some ts →
  time (tick s) - ts ≤ HEARTBEAT_TIMEOUT →
  active (_maintain_and_promote time s) !! k = Some ts.
Proof.
  intros Hk Hage.
  destruct (maintain_spec time s) as (popped & _ & _ & _ & _ & _ & _ & Hold & _).
  cbn zeta in Hold.
  assert (H1 : active (expire time s) !! k = Some ts).
  { apply expire_lookup. split; [done | lia]. }
  rewrite Hold; [done|]. intros [Hns _]%fresh_not_seen.
  apply Hns, elem_of_dom. eauto.
Qed.

Lemma maintain_evicts (time : nat → Z) (s : qstate) (k : key) (ts : Z) :
  active s !! k = Some ts →
  HEARTBEAT_TIMEOUT < time (tick s) - ts →
  k ∉ queue_keys (queue s) →
  active (_maintain_and_promote time s) !! k = None.
Proof.
  intros Hk Hage Hq. apply eq_None_not_Some. intros Hin.
  destruct (maintain_spec time s) as (popped & Hpop & _ & _ & _ & _ & _ & Hold & _).
  cbn zeta in Hold. rewrite Hold in Hin.
  - destruct Hin as [ts' Hin]. apply expire_lookup in Hin as [Hk' Hn].
    rewrite Hk in Hk'. injection Hk' as <-. by apply Hn.
  - intros [_ Hin']%fresh_not_seen. apply Hq. rewrite Hpop.
    unfold queue_keys in *. rewrite fmap_app. apply elem_of_app. by left.
Qed.

Lemma maintain_keeps_waiters (time : nat → Z) (s : qstate) (k : key) :
  k ∈ queue_keys (queue s) →
  k ∈ queue_keys (queue (_maintain_and_promote time s)) ∨
  is_Some (active (_maintain_and_promote time s) !! k).
Proof.
  intros Hk.
  destruct (maintain_spec time s)
    as (popped & Hpop & _ & _ & _ & _ & Hnew & Hold & _).
  cbn zeta in Hnew, Hold. rewrite Hpop in Hk.
  unfold queue_keys in Hk. rewrite fmap_app in Hk.
  apply elem_of_app in Hk as [Hk|Hk]; [|by left]. right.
  destruct (decide (k ∈ dom (active (expire time s)))) as [Hd|Hd].
  - rewrite Hold; [by apply elem_of_dom|].
    by intros [? _]%fresh_not_seen.
  - pose proof (fresh_complete _ _ _ Hk Hd) as Hf.
    apply list_elem_of_lookup in Hf as [i Hi].
    rewrite (Hnew _ _ Hi). eauto.
Qed.

Lemma promote_keeps (time : nat → Z) (q : list entry) (a : gmap key Z)
    (slots moved : Z) (tk : nat) (k : key) :
  is_Some (a !! k) → is_Some ((promote time q a slots moved tk).1.1 !! k).
Proof.
  intros Hk.
  destruct (promote time q a slots moved tk) as [[a' q'] tk'] eqn:Hp.
  apply promote_spec in Hp as (popped & _ & _ & _ & _ & _ & _ & Hold & _).
  cbn zeta in Hold. cbn. rewrite Hold; [done|].
  intros [Hns _]%fresh_not_seen. by apply Hns, elem_of_dom.
Qed.

(** ** The logic of the handlers on keys *)

Lemma enter_logic_keeps (time : nat → Z) (c t : string) (s1 : qstate) (k : key) :
  (is_Some (active s1 !! k) → is_Some (active (enter_logic time c t s1).2 !! k)) ∧
  (k ∈ queue_keys (queue s1) → k ∈ queue_keys (queue (enter_logic time c t s1).2)).
Proof.
  unfold enter_logic.
  destruct (decide (is_Some (active s1 !! (c, t)))); cbn.
  { split; [|done]. intros Hk. rewrite lookup_insert_is_Some'. by right. }
  case_bool_decide; cbn.
  { split; [|done]. intros Hk. rewrite lookup_insert_is_Some'. by right. }
  destruct (_queue_position c t (queue s1)); cbn; [done|].
  split; [done|]. intros Hk. unfold queue_keys. rewrite fmap_app.
  apply elem_of_app. by left.
Qed.

Lemma enter_logic_new_keys (time : nat → Z) (c t : string) (s1 : qstate) (k : key) :
  is_Some (active (enter_logic time c t s1).2 !! k) ∨
  k ∈ queue_keys (queue (enter_logic time c t s1).2) →
  k = (c, t) ∨ is_Some (active s1 !! k) ∨ k ∈ queue_keys (queue s1).
Proof.
  unfold enter_logic.
  destruct (decide (is_Some (active s1 !! (c, t)))); cbn.
  { rewrite lookup_insert_is_Some'. intros [[<-|?]|?]; auto. }
  case_bool_decide; cbn.
  { rewrite lookup_insert_is_Some'. intros [[<-|?]|?]; auto. }
  destruct (_queue_position c t (queue s1)); cbn; [tauto|].
  unfold queue_keys. rewrite fmap_app, elem_of_app. cbn.
  rewrite list_elem_of_singleton. intros [?|[?| ->]]; auto.
Qed.

Lemma heartbeat_logic_dom (time : nat → Z) (c t : string) (s1 : qstate) (k : key) :
  is_Some (active (heartbeat_logic time c t s1).2 !! k) ↔ is_Some (active s1 !! k).
Proof.
  unfold heartbeat_logic.
  destruct (decide (is_Some (active s1 !! (c, t)))) as [Hin|Hin]; cbn.
  - rewrite lookup_insert_is_Some'. split; [|by right].
    intros [<-|?]; done.
  - by destruct (_queue_position c t (queue s1)).
Qed.

Lemma heartbeat_logic_keeps_queue (time : nat → Z) (c t : string) (s1 : qstate) :
  queue (heartbeat_logic time c t s1).2 = queue s1.
Proof. apply heartbeat_logic_queue. Qed.

(** ** enter *)

(** X3.  enter with well-formed ids has two outcomes.  Either the key is
    active afterwards, stamped with the last clock reading, and the answer
    is "active"; or the active set is full, the key is not active but
    queued, and the answer is "queued" with its rank in the queue.  The
    answer is never "none", and the count in it is that of the final
    state. *)
Theorem enter_outcome (time : nat → Z) (c t : string) (s : qstate) :
  c ≠ EmptyString → t ≠ EmptyString →
  let r := (queue_enter time (Some c) (Some t) s).1 in
  let s' := (queue_enter time (Some c) (Some t) s).2 in
  (r = RActive (len (active s')) MAX_ACTIVE ∧
   active s' !! (c, t) = Some (time (pred (tick s')))) ∨
  (∃ p, r = RQueued (Some p) (len (active s')) MAX_ACTIVE ∧
        active s' !! (c, t) = None ∧
        _queue_position c t (queue s') = Some p ∧
        MAX_ACTIVE ≤ len (active s')).
Proof.
  intros Hc Ht r s'. subst r s'. rewrite queue_enter_unfold by done.
  set (m := _maintain_and_promote time s). unfold enter_logic.
  destruct (decide (is_Some (active m !! (c, t)))) as [Hin|Hin]; cbn.
  { left. by rewrite lookup_insert_eq. }
  case_bool_decide as Hlt; cbn.
  { left. by rewrite lookup_insert_eq. }
  right. apply eq_None_not_Some in Hin.
  destruct (_queue_position c t (queue m)) as [p|] eqn:Hpos; cbn.
  - exists p. split_and!; try done. lia.
  - destruct (_queue_position c t (queue m ++ [(c, t, time (tick m))]))
      as [p|] eqn:Hpos'.
    + exists p. split_and!; try done. lia.
    + exfalso. apply queue_position_None in Hpos'. apply Hpos'.
      unfold queue_keys. rewrite fmap_app. apply elem_of_app. right.
      cbn. by left.
Qed.

Lemma enter_outcome_witness :
  "c"%string ≠ EmptyString ∧ "q1"%string ≠ EmptyString ∧
  (queue_enter clock_still (Some "c"%string) (Some "q1"%string)
     (run clock_still fill_ten init)).1
  = RQueued (Some 1%nat) 10 10.
Proof.
  split_and!; [discriminate | discriminate |].
  destruct (enter_outcome clock_still "c"%string "q1"%string
              (run clock_still fill_ten init)) as [[_ Ha]|(p & Hr & _)];
    [discriminate | discriminate | |].
  - vm_compute in Ha. discriminate Ha.
  - vm_compute. reflexivity.
Defined.

(** X10.  enter when the active set is full after the maintenance pass
    [m], for a key that is not active.  A key that is not queued joins at
    the tail, stamped with the clock reading, and is told the new length
    of the queue as its position.  A key that is already queued gets no
    second entry: the state is [m] and the position is its rank. *)
Theorem enter_when_full (time : nat → Z) (c t : string) (s : qstate) :
  c ≠ EmptyString → t ≠ EmptyString →
  let m := _maintain_and_promote time s in
  active m !! (c, t) = None →
  MAX_ACTIVE ≤ len (active m) →
  ((c, t) ∉ queue_keys (queue m) →
   queue_enter time (Some c) (Some t) s
   = (RQueued (Some (S (length (queue m)))) (len (active m)) MAX_ACTIVE,
      QState (active m) (queue m ++ [(c, t, time (tick m))]) (S (tick m)))) ∧
  (∀ p, _queue_position c t (queue m) = Some p →
        queue_enter time (Some c) (Some t) s
        = (RQueued (Some p) (len (active m)) MAX_ACTIVE, m)).
Proof.
  intros Hc Ht m Hout Hfull. rewrite queue_enter_unfold by done. fold m.
  unfold enter_logic. rewrite Hout.
  rewrite decide_False by (by intros [? ?]).
  rewrite bool_decide_eq_false_2 by lia. split.
  - intros Hq. rewrite (proj2 (queue_position_None c t (queue m)) Hq).
    do 3 f_equal. unfold _queue_position. apply position_from_Some.
    exists (queue m), (c, t, time (tick m)), []. split_and!; try done.
  - intros p Hp. by rewrite Hp.
Qed.

Lemma enter_when_full_witness :
  "c"%string ≠ EmptyString ∧ "q1"%string ≠ EmptyString ∧
  queue (queue_enter clock_still (Some "c"%string) (Some "q1"%string)
           (run clock_still fill_ten init)).2
  = [("c", "q1", 0)]%string.
Proof.
  split_and!; [discriminate | discriminate |].
  pose proof (enter_when_full clock_still "c"%string "q1"%string
                (run clock_still fill_ten init)) as H.
  destruct H as [H _]; [discriminate | discriminate | | | ].
  - vm_compute. reflexivity.
  - vm_compute. discriminate.
  - rewrite H.
    + vm_compute. reflexivity.
    + vm_compute. intros Hin. by apply elem_of_nil in Hin.
Defined.

(** ** Sessions over one request *)

(** X4.  An active session whose last-seen age at the start of a request
    is within [HEARTBEAT_TIMEOUT] is still active after the request,
    whoever makes it, unless the request is its own leave. *)
Theorem active_session_kept (time : nat → Z) (o : op) (s : qstate)
    (k : key) (ts : Z) :
  active s !! k = Some ts →
  time (tick s) - ts ≤ HEARTBEAT_TIMEOUT →
  o ≠ Leave (Some k.1) (Some k.2) →
  is_Some (active (step time o s).2 !! k).
Proof.
  intros Hk Hage Ho.
  assert (Hm : is_Some (active (_maintain_and_promote time s) !! k)).
  { erewrite maintain_keeps_fresh; eauto. }
  destruct o as [c t|c t|c t|c t]; cbn [step].
  - destruct (valid_ids c t) as [[c' t']|] eqn:Hv.
    + apply valid_ids_Some in Hv as (-> & -> & ? & ?).
      rewrite queue_enter_unfold by done. by apply enter_logic_keeps.
    + rewrite rejected_enter by done. cbn. eauto.
  - by rewrite queue_status_unfold, status_logic_state.
  - destruct (valid_ids c t) as [[c' t']|] eqn:Hv.
    + apply valid_ids_Some in Hv as (-> & -> & ? & ?).
      rewrite queue_heartbeat_unfold by done. by apply heartbeat_logic_dom.
    + rewrite rejected_heartbeat by done. cbn. eauto.
  - destruct (valid_ids c t) as [[c' t']|] eqn:Hv.
    + apply valid_ids_Some in Hv as (-> & -> & ? & ?).
      rewrite queue_leave_unfold by done. cbn.
      erewrite maintain_keeps_fresh; [eauto| |done].
      cbn. rewrite lookup_delete_ne; [done|].
      intros <-. by apply Ho.
    + rewrite rejected_leave by done. cbn. eauto.
Qed.

Lemma active_session_kept_witness :
  is_Some (active (step clock_still (Leave (Some "c") (Some "2"))%string
                     (run clock_still fill_ten init)).2
             !! ("c", "1")%string).
Proof.
  apply (active_session_kept clock_still _ _ ("c", "1")%string 0).
  - vm_compute. reflexivity.
  - vm_compute. discriminate.
  - discriminate.
Defined.

(** X5.  A session that has been silent for more than
    [HEARTBEAT_TIMEOUT], and is not queued, is gone at the next request:
    its own status or (well-formed) heartbeat is answered "none", and the
    late heartbeat does not bring it back. *)
Theorem silent_session_evicted (time : nat → Z) (c t : string) (s : qstate)
    (ts : Z) :
  active s !! (c, t) = Some ts →
  HEARTBEAT_TIMEOUT < time (tick s) - ts →
  (c, t) ∉ queue_keys (queue s) →
  let m := _maintain_and_promote time s in
  queue_status time c t s = (RNone (len (active m)) MAX_ACTIVE, m) ∧
  (c ≠ EmptyString → t ≠ EmptyString →
   queue_heartbeat time (Some c) (Some t) s
   = (RNone (len (active m)) MAX_ACTIVE, m)) ∧
  active m !! (c, t) = None.
Proof.
  intros Hk Hage Hq m.
  assert (Ha : active m !! (c, t) = None) by (by eapply maintain_evicts).
  assert (Hp : _queue_position c t (queue m) = None).
  { apply queue_position_None. by intros ?%maintain_queue_subset. }
  split_and!; [| |done].
  - rewrite queue_status_unfold. fold m. unfold status_logic.
    rewrite Ha, Hp. by rewrite decide_False by (by intros [? ?]).
  - intros Hc Ht. rewrite queue_heartbeat_unfold by done. fold m.
    unfold heartbeat_logic.
    rewrite Ha, Hp. by rewrite decide_False by (by intros [? ?]).
Qed.

Lemma silent_session_evicted_witness :
  (queue_status clock_jump "c"%string "1"%string
     (run clock_jump (fill_ten ++ six_waiters) init)).1
  = RNone 5 10.
Proof.
  pose proof (silent_session_evicted clock_jump "c"%string "1"%string
                (run clock_jump (fill_ten ++ six_waiters) init) 0) as H.
  destruct H as [H _].
  - vm_compute. reflexivity.
  - vm_compute. reflexivity.
  - vm_compute. intros Hin.
    repeat (apply elem_of_cons in Hin as [Hin|Hin]; [discriminate Hin|]).
    by apply elem_of_nil in Hin.
  - rewrite H. vm_compute. reflexivity.
Defined.

(** X6.  A queued session is never dropped by a request other than its own
    leave: afterwards it is still queued or it is active. *)
Theorem waiter_never_dropped (time : nat → Z) (o : op) (s : qstate) (k : key) :
  k ∈ queue_keys (queue s) →
  o ≠ Leave (Some k.1) (Some k.2) →
  k ∈ queue_keys (queue (step time o s).2) ∨
  is_Some (active (step time o s).2 !! k).
Proof.
  intros Hk Ho.
  pose proof (maintain_keeps_waiters time s k Hk) as Hm.
  destruct o as [c t|c t|c t|c t]; cbn [step].
  - destruct (valid_ids c t) as [[c' t']|] eqn:Hv.
    + apply valid_ids_Some in Hv as (-> & -> & ? & ?).
      rewrite queue_enter_unfold by done.
      destruct Hm as [Hm|Hm]; [left|right]; by apply enter_logic_keeps.
    + rewrite rejected_enter by done. by left.
  - by rewrite queue_status_unfold, status_logic_state.
  - destruct (valid_ids c t) as [[c' t']|] eqn:Hv.
    + apply valid_ids_Some in Hv as (-> & -> & ? & ?).
      rewrite queue_heartbeat_unfold by done.
      rewrite heartbeat_logic_keeps_queue, heartbeat_logic_dom. done.
    + rewrite rejected_heartbeat by done. by left.
  - destruct (valid_ids c t) as [[c' t']|] eqn:Hv.
    + apply valid_ids_Some in Hv as (-> & -> & ? & ?).
      rewrite queue_leave_unfold by done. cbn.
      apply maintain_keeps_waiters. cbn.
      destruct (leave_queue_spec c' t' (queue s))
        as [[_ ->]|(q1 & e & q2 & Hq & He & _ & ->)]; [done|].
      rewrite Hq in Hk. unfold queue_keys in *.
      rewrite fmap_app, fmap_cons, elem_of_app, elem_of_cons in Hk.
      rewrite fmap_app, elem_of_app.
      destruct Hk as [?|[->|?]]; [by left| |by right].
      exfalso. apply Ho. by rewrite He.
    + rewrite rejected_leave by done. by left.
Qed.

Lemma waiter_never_dropped_witness :
  let s := run clock_jump (fill_ten ++ six_waiters) init in
  let s' := (step clock_jump (Status "x" "y")%string s).2 in
  ("c", "q2")%string ∈ queue_keys (queue s') ∨
  is_Some (active s' !! ("c", "q2")%string).
Proof.
  apply (waiter_never_dropped clock_jump (Status "x" "y")%string
           (run clock_jump (fill_ten ++ six_waiters) init) ("c", "q2")%string).
  - vm_compute. right. left.
  - discriminate.
Defined.

(** X7.  A well-formed heartbeat answered "active" stamps the session with
    the last clock reading; a heartbeat neither admits nor queues anyone:
    the active keys and the queue are those left by the maintenance
    pass. *)
Theorem heartbeat_refreshes (time : nat → Z) (c t : string) (s : qstate) :
  c ≠ EmptyString → t ≠ EmptyString →
  let m := _maintain_and_promote time s in
  let r := (queue_heartbeat time (Some c) (Some t) s).1 in
  let s' := (queue_heartbeat time (Some c) (Some t) s).2 in
  (is_Some (active m !! (c, t)) →
   r = RActive (len (active m)) MAX_ACTIVE ∧
   active s' !! (c, t) = Some (time (pred (tick s')))) ∧
  (∀ k, k ≠ (c, t) → active s' !! k = active m !! k) ∧
  dom (active s') = dom (active m) ∧
  queue s' = queue m.
Proof.
  intros Hc Ht m r s'. subst r s'.
  rewrite queue_heartbeat_unfold by done. fold m.
  split_and!.
  - intros Hin. unfold heartbeat_logic. rewrite decide_True by done. cbn.
    rewrite lookup_insert_eq, insert_len_Some by done. done.
  - intros k Hne. unfold heartbeat_logic.
    destruct (decide (is_Some (active m !! (c, t)))); cbn.
    + by rewrite lookup_insert_ne.
    + by destruct (_queue_position c t (queue m)).
  - apply set_eq. intros k. rewrite !elem_of_dom. apply heartbeat_logic_dom.
  - apply heartbeat_logic_keeps_queue.
Qed.

Lemma heartbeat_refreshes_witness :
  "c"%string ≠ EmptyString ∧ "3"%string ≠ EmptyString ∧
  queue (queue_heartbeat clock_still (Some "c"%string) (Some "3"%string)
           (run clock_still (fill_ten ++ six_waiters) init)).2
  = queue (_maintain_and_promote clock_still
             (run clock_still (fill_ten ++ six_waiters) init)).
Proof.
  split_and!; [discriminate | discriminate |].
  apply (heartbeat_refreshes clock_still "c"%string "3"%string
           (run clock_still (fill_ten ++ six_waiters) init)); discriminate.
Defined.

(** ** The order of the queue *)

Lemma leave_queue_sublist (c t : string) (q : list entry) :
  leave_queue c t q `sublist_of` q.
Proof.
  destruct (leave_queue_spec c t q)
    as [[_ ->]|(q1 & e & q2 & -> & _ & _ & ->)]; [done|].
  apply sublist_app; [done|]. by apply sublist_cons.
Qed.

Lemma maintain_sublist (time : nat → Z) (s : qstate) :
  queue (_maintain_and_promote time s) `sublist_of` queue s.
Proof.
  destruct (maintain_queue_suffix time s) as [popped Hq].
  rewrite Hq. by apply sublist_inserts_l.
Qed.

(** What one request does to the queue: it keeps a subsequence of it, and
    an enter that queues its key puts one entry behind the queue that the
    maintenance pass left. *)
Lemma step_queue_shape (time : nat → Z) (o : op) (s : qstate) :
  queue (step time o s).2 `sublist_of` queue s ∨
  (∃ c t ts,
     let m := _maintain_and_promote time s in
     o = Enter (Some c) (Some t) ∧
     queue (step time o s).2 = queue m ++ [(c, t, ts)] ∧
     active m !! (c, t) = None ∧ ((c, t) ∉ queue_keys (queue m))).
Proof.
  destruct o as [c t|c t|c t|c t]; cbn [step].
  - destruct (valid_ids c t) as [[c' t']|] eqn:Hv.
    + apply valid_ids_Some in Hv as (-> & -> & ? & ?).
      rewrite queue_enter_unfold by done.
      set (m := _maintain_and_promote time s). unfold enter_logic.
      destruct (decide (is_Some (active m !! (c', t')))) as [Hin|Hin]; cbn.
      { left. apply maintain_sublist. }
      case_bool_decide; cbn. { left. apply maintain_sublist. }
      destruct (_queue_position c' t' (queue m)) eqn:Hpos; cbn.
      { left. apply maintain_sublist. }
      right. exists c', t', (time (tick m)). split_and!; try done.
      * by apply eq_None_not_Some.
      * by apply queue_position_None.
    + rewrite rejected_enter by done. by left.
  - left. rewrite queue_status_unfold, status_logic_state.
    apply maintain_sublist.
  - left. destruct (valid_ids c t) as [[c' t']|] eqn:Hv.
    + apply valid_ids_Some in Hv as (-> & -> & ? & ?).
      rewrite queue_heartbeat_unfold by done.
      rewrite heartbeat_logic_keeps_queue. apply maintain_sublist.
    + by rewrite rejected_heartbeat.
  - left. destruct (valid_ids c t) as [[c' t']|] eqn:Hv.
    + apply valid_ids_Some in Hv as (-> & -> & ? & ?).
      rewrite queue_leave_unfold by done. cbn.
      etrans; [apply maintain_sublist|]. cbn. apply leave_queue_sublist.
    + by rewrite rejected_leave.
Qed.

(** X8.  No request reorders the queue.  The queue after a request is
    [kept ++ new], where [kept] is a subsequence of the queue before it
    (entries are removed, never moved) and [new] is empty or one entry put
    last by a well-formed enter: the entry of that enter's key, which was
    not queued before the request. *)
Theorem queue_order_kept (time : nat → Z) (o : op) (s : qstate) :
  ∃ kept new,
    queue (step time o s).2 = kept ++ new ∧
    kept `sublist_of` queue s ∧
    (new = [] ∨
     ∃ c t ts, new = [(c, t, ts)] ∧ o = Enter (Some c) (Some t) ∧
               ((c, t) ∉ queue_keys (queue s)) ∧
               ((c, t) ∉ queue_keys kept)).
Proof.
  destruct (step_queue_shape time o s)
    as [Hs|(c & t & ts & Ho & Hq & Hact & Hnq)].
  - exists (queue (step time o s).2), []. rewrite app_nil_r.
    split_and!; [done | done | by left].
  - cbn zeta in *.
    exists (queue (_maintain_and_promote time s)), [(c, t, ts)].
    split_and!; [done | apply maintain_sublist |]. right.
    exists c, t, ts. split_and!; try done.
    intros [Hin|Hin]%(maintain_keeps_waiters time); [done|].
    rewrite Hact in Hin. by destruct Hin.
Qed.

Lemma position_from_shift (pos : nat) (c t : string) (q : list entry) :
  position_from (S pos) c t q = S <$> position_from pos c t q.
Proof.
  revert pos. induction q as [|[[c' t'] ts] q IH]; intros pos; cbn; [done|].
  by destruct (bool_decide (c' = c) && bool_decide (t' = t)).
Qed.

Lemma position_sublist (c t : string) (l1 l2 : list entry) :
  l1 `sublist_of` l2 →
  NoDup (queue_keys l2) →
  ∀ pos p1 p2,
    position_from pos c t l1 = Some p1 →
    position_from pos c t l2 = Some p2 →
    (p1 ≤ p2)%nat.
Proof.
  induction 1 as [|[[c' t'] ts] l1 l2 Hsub IH|[[c' t'] ts] l1 l2 Hsub IH];
    intros Hnd pos p1 p2; cbn.
  - done.
  - apply NoDup_cons in Hnd as [_ Hnd].
    destruct (bool_decide (c' = c) && bool_decide (t' = t)).
    + intros [= <-] [= <-]. lia.
    + by apply IH.
  - apply NoDup_cons in Hnd as [Hnin Hnd].
    destruct (bool_decide (c' = c) && bool_decide (t' = t)) eqn:Hm.
    + apply andb_true_iff in Hm as [->%bool_decide_eq_true ->%bool_decide_eq_true].
      intros Hp1 _. exfalso.
      assert (Hin : (c, t) ∈ queue_keys l1).
      { destruct (decide ((c, t) ∈ queue_keys l1)) as [|Hn]; [done|].
        apply position_from_None with (pos := pos) in Hn. congruence. }
      apply Hnin. unfold queue_keys in *.
      eapply sublist_subseteq; [|exact Hin]. by apply fmap_sublist.
    + rewrite position_from_shift.
      destruct (position_from pos c t l2) as [p2'|] eqn:H2; [|done].
      intros Hp1 [= <-]. specialize (IH Hnd pos p1 p2' Hp1 H2). lia.
Qed.

Lemma position_from_app_l (pos : nat) (c t : string) (q1 q2 : list entry) :
  (c, t) ∈ queue_keys q1 →
  position_from pos c t (q1 ++ q2) = position_from pos c t q1.
Proof.
  revert pos. induction q1 as [|[[c' t'] ts] q1 IH]; intros pos; cbn.
  - by intros ?%elem_of_nil.
  - destruct (bool_decide (c' = c) && bool_decide (t' = t)) eqn:Hm; [done|].
    intros [Heq|Hin]%elem_of_cons; [|by apply IH].
    unfold entry_key in Heq; cbn in Heq. injection Heq as <- <-.
    by rewrite !bool_decide_eq_true_2 in Hm.
Qed.

(** X9.  When no key is queued twice (as in every state reached from the
    empty one), the position of a queued session never gets worse: if it is
    queued before and after a request, its rank after is at most its rank
    before. *)
Theorem position_never_worse (time : nat → Z) (o : op) (s : qstate)
    (c t : string) (p p' : nat) :
  NoDup (queue_keys (queue s)) →
  _queue_position c t (queue s) = Some p →
  _queue_position c t (queue (step time o s).2) = Some p' →
  (p' ≤ p)%nat.
Proof.
  intros Hnd Hp Hp'. unfold _queue_position in *.
  assert (Hmem : ∀ q n, position_from 1 c t q = Some n → (c, t) ∈ queue_keys q).
  { intros q n Hn. destruct (decide ((c, t) ∈ queue_keys q)) as [|Hno]; [done|].
    apply position_from_None with (pos := 1%nat) in Hno. congruence. }
  destruct (step_queue_shape time o s)
    as [Hs|(c0 & t0 & ts & _ & Hq & Hact & Hnq)].
  - by eapply position_sublist.
  - cbn zeta in *. rewrite Hq in Hp'.
    set (m := _maintain_and_promote time s) in *.
    destruct (decide ((c, t) ∈ queue_keys (queue m))) as [Hm|Hm].
    + rewrite position_from_app_l in Hp' by done.
      eapply position_sublist; [apply maintain_sublist|done..].
    + exfalso. apply Hmem in Hp'.
      unfold queue_keys in Hp'. rewrite fmap_app, elem_of_app in Hp'.
      cbn in Hp'. rewrite list_elem_of_singleton in Hp'.
      destruct Hp' as [Hin|Heq]; [done|].
      unfold entry_key in Heq; cbn in Heq. injection Heq as -> ->.
      destruct (maintain_keeps_waiters time s _ (Hmem _ _ Hp)) as [?|Ha];
        [done|].
      fold m in Ha. rewrite Hact in Ha. by destruct Ha.
Qed.

Lemma position_never_worse_witness :
  let s := run clock_still (fill_ten ++ six_waiters) init in
  let s' := (step clock_still (Leave (Some "c") (Some "q1"))%string s).2 in
  _queue_position "c" "q3" (queue s) = Some 3%nat ∧
  _queue_position "c" "q3" (queue s') = Some 2%nat ∧
  (2 ≤ 3)%nat.
Proof.
  split_and!; [vm_compute; reflexivity | vm_compute; reflexivity |].
  apply (position_never_worse clock_still
           (Leave (Some "c") (Some "q1"))%string
           (run clock_still (fill_ten ++ six_waiters) init)
           "c"%string "q3"%string).
  - apply (bool_decide_unpack _). vm_compute. exact I.
  - vm_compute. reflexivity.
  - vm_compute. reflexivity.
Defined.

(** X11.  When a slot is free after the expiry scan, the session at the
    head of the queue is active after the maintenance pass, and the queue
    that remains is a suffix of the queue behind it. *)
Theorem free_slot_goes_to_head (time : nat → Z) (s : qstate) (e : entry)
    (q : list entry) :
  queue s = e :: q →
  len (active (expire time s)) < MAX_ACTIVE →
  let m := _maintain_and_promote time s in
  is_Some (active m !! entry_key e) ∧ queue m `suffix_of` q.
Proof.
  intros Hq Hfree m. subst m. unfold _maintain_and_promote.
  set (s1 := expire time s) in *.
  assert (Hq1 : queue s1 = e :: q) by done. rewrite Hq1.
  destruct e as [[c t] ets]. cbn [promote].
  rewrite (bool_decide_eq_true_2 (0 < slots_of (active s1)))
    by (unfold slots_of; lia).
  rewrite (bool_decide_eq_true_2 (0 < PROMOTE_BATCH)) by done.
  cbn [andb _now].
  destruct (decide (is_Some (active s1 !! (c, t)))) as [Hin|Hin].
  - pose proof (promote_keeps time q (active s1) (slots_of (active s1)) 0
                  (tick s1) (c, t) Hin) as Hk.
    destruct (promote time q (active s1) (slots_of (active s1)) 0 (tick s1))
      as [[a' q'] tk'] eqn:Hp.
    apply promote_spec in Hp as (popped & -> & _). cbn in *.
    split; [done | by exists popped].
  - assert (Hin' : is_Some (<[(c, t) := time (tick s1)]> (active s1) !! (c, t)))
      by (rewrite lookup_insert_eq; eauto).
    pose proof (promote_keeps time q _ (slots_of (active s1) - 1) (0 + 1)
                  (S (tick s1)) (c, t) Hin') as Hk.
    destruct (promote time q (<[(c, t) := time (tick s1)]> (active s1))
                (slots_of (active s1) - 1) (0 + 1) (S (tick s1)))
      as [[a' q'] tk'] eqn:Hp.
    apply promote_spec in Hp as (popped & -> & _). cbn in *.
    split; [done | by exists popped].
Qed.

Lemma free_slot_goes_to_head_witness :
  let s := leave_remove "c" "4"
             (run clock_still (fill_ten ++ six_waiters) init) in
  is_Some (active (_maintain_and_promote clock_still s) !! ("c", "q1")%string).
Proof.
  refine (proj1 (free_slot_goes_to_head clock_still
            (leave_remove "c" "4"
               (run clock_still (fill_ten ++ six_waiters) init))
            ("c", "q1", 0)%string _ _ _)).
  - vm_compute. reflexivity.
  - vm_compute. reflexivity.
Defined.

(** ** Keys held by the component *)

Lemma maintain_keys_from (time : nat → Z) (s : qstate) (k : key) :
  is_Some (active (_maintain_and_promote time s) !! k) ∨
  k ∈ queue_keys (queue (_maintain_and_promote time s)) →
  is_Some (active s !! k) ∨ k ∈ queue_keys (queue s).
Proof.
  intros [Ha|Hq].
  - by apply (maintain_no_new_keys time).
  - right. by eapply maintain_queue_subset.
Qed.

(** X12.  From the empty state, whatever the requests and the clock, every
    key held in the active set or in the queue has a non-empty client id
    and a non-empty tab id. *)
Theorem stored_keys_well_formed (time : nat → Z) (ops : list op) (k : key) :
  let s := run time ops init in
  is_Some (active s !! k) ∨ k ∈ queue_keys (queue s) →
  k.1 ≠ EmptyString ∧ k.2 ≠ EmptyString.
Proof.
  intros s. subst s. revert k.
  apply (run_invariant time
    (λ s, ∀ k, is_Some (active s !! k) ∨ k ∈ queue_keys (queue s) →
               k.1 ≠ EmptyString ∧ k.2 ≠ EmptyString)).
  - intros o s IH k.
    destruct o as [c t|c t|c t|c t]; cbn [step].
    + destruct (valid_ids c t) as [[c' t']|] eqn:Hv.
      * apply valid_ids_Some in Hv as (-> & -> & ? & ?).
        rewrite queue_enter_unfold by done.
        intros [->|Hold]%enter_logic_new_keys; [done|].
        by apply IH, (maintain_keys_from time).
      * rewrite rejected_enter by done. apply IH.
    + rewrite queue_status_unfold, status_logic_state.
      intros Hk. by apply IH, (maintain_keys_from time).
    + destruct (valid_ids c t) as [[c' t']|] eqn:Hv.
      * apply valid_ids_Some in Hv as (-> & -> & ? & ?).
        rewrite queue_heartbeat_unfold by done.
        rewrite heartbeat_logic_keeps_queue, heartbeat_logic_dom.
        intros Hk. by apply IH, (maintain_keys_from time).
      * rewrite rejected_heartbeat by done. apply IH.
    + destruct (valid_ids c t) as [[c' t']|] eqn:Hv.
      * apply valid_ids_Some in Hv as (-> & -> & ? & ?).
        rewrite queue_leave_unfold by done. cbn.
        intros [Ha|Hq]%maintain_keys_from; apply IH.
        -- left. cbn in Ha. apply lookup_delete_is_Some in Ha. tauto.
        -- right. cbn in Hq. by apply leave_queue_subset in Hq.
      * rewrite rejected_leave by done. apply IH.
  - intros k [Ha|Hq].
    + cbn in Ha. rewrite lookup_empty in Ha. by destruct Ha.
    + cbn in Hq. by apply elem_of_nil in Hq.
Qed.

Lemma stored_keys_well_formed_witness :
  ("c", "q6")%string.1 ≠ EmptyString ∧ ("c", "q6")%string.2 ≠ EmptyString.
Proof.
  apply (stored_keys_well_formed clock_jump
           (fill_ten ++ six_waiters ++ [ent "q6"%string]) ("c", "q6")%string).
  left. vm_compute. eauto.
Defined.

(** X26.  When no key is queued twice (as in every state reached from the
    empty one), a well-formed leave removes the session for good: it is
    neither active nor queued afterwards, and a status request that
    follows is answered "none". *)
Theorem status_after_leave_is_none (time : nat → Z) (c t : string)
    (s : qstate) :
  c ≠ EmptyString → t ≠ EmptyString →
  NoDup (queue_keys (queue s)) →
  let s' := (queue_leave time (Some c) (Some t) s).2 in
  active s' !! (c, t) = None ∧
  ((c, t) ∉ queue_keys (queue s')) ∧
  ∃ n, (queue_status time c t s').1 = RNone n MAX_ACTIVE.
Proof.
  intros Hc Ht Hnd s'. subst s'. rewrite queue_leave_unfold by done. cbn.
  set (s1 := leave_remove c t s).
  assert (Hgone : ∀ s2, ¬ (is_Some (active s2 !! (c, t)) ∨
                           (c, t) ∈ queue_keys (queue s2)) →
            ¬ (is_Some (active (_maintain_and_promote time s2) !! (c, t)) ∨
               (c, t) ∈ queue_keys (queue (_maintain_and_promote time s2)))).
  { intros s2 Hno Hyes. by apply Hno, (maintain_keys_from time). }
  assert (H1 : ¬ (is_Some (active s1 !! (c, t)) ∨
                  (c, t) ∈ queue_keys (queue s1))).
  { intros [Ha|Hq].
    - cbn in Ha. rewrite lookup_delete_eq in Ha. by destruct Ha.
    - cbn in Hq. by apply (leave_queue_gone c t (queue s)) in Hq. }
  pose proof (Hgone _ H1) as H2. pose proof (Hgone _ H2) as H3.
  split_and!.
  - apply eq_None_not_Some. tauto.
  - tauto.
  - rewrite queue_status_unfold. unfold status_logic.
    rewrite decide_False by tauto.
    rewrite (proj2 (queue_position_None c t _)) by tauto. eauto.
Qed.

Lemma status_after_leave_is_none_witness :
  let s' := (queue_leave clock_still (Some "c") (Some "q2")
               (run clock_still (fill_ten ++ six_waiters) init))%string.2 in
  ("c", "q2")%string ∉ queue_keys (queue s').
Proof.
  refine (proj1 (proj2 (status_after_leave_is_none clock_still
            "c"%string "q2"%string
            (run clock_still (fill_ten ++ six_waiters) init) _ _ _)));
    [discriminate | discriminate |].
  apply (bool_decide_unpack _). vm_compute. exact I.
Defined.

End QueueMore.

(* ===================================================================== *)
Module CacheMore.
Import Cache CacheFacts.

(** ** [_make_event_key] *)

(** X13.  The fingerprint of a dict is always defined, is never empty, and
    is decided by six lookups only: two dicts that agree on [time_utc],
    [time_th], [lat], [lon], [mag] and [depth_km] have the same
    fingerprint, whatever else they hold.  On anything that is not a dict
    the function raises [AttributeError]. *)
Theorem event_key_of_dicts (py_str : value → string) :
  (∀ d, ∃ k, key_of py_str (VDict d) = inr k ∧ k ≠ EmptyString) ∧
  (∀ d1 d2,
     (∀ f, f ∈ ["time_utc"; "time_th"; "lat"; "lon"; "mag"; "depth_km"]%string →
           assoc f d1 = assoc f d2) →
     key_of py_str (VDict d1) = key_of py_str (VDict d2)) ∧
  (∀ meta, (∀ d, meta ≠ VDict d) → key_of py_str meta = inl AttributeError).
Proof.
  split_and!.
  - intros d. unfold key_of. cbn [py_get].
    destruct (truthy (default VNone (assoc "time_utc" d))).
    + eexists. split; [reflexivity|].
      by destruct (py_str (default VNone (assoc "time_utc" d))).
    + eexists. split; [reflexivity|].
      by destruct (py_str (default VNone (assoc "time_th" d))).
  - intros d1 d2 Hf. unfold key_of. cbn [py_get].
    rewrite !(Hf "time_utc"%string), !(Hf "time_th"%string),
      !(Hf "lat"%string), !(Hf "lon"%string), !(Hf "mag"%string),
      !(Hf "depth_km"%string); [done|..];
      repeat first [by left | right].
  - intros meta Hnd. destruct meta; try done. by destruct (Hnd d).
Qed.

(** X14.  What the fingerprint ignores.  When [time_utc] is truthy,
    [time_th] plays no part; when [time_utc] is falsy in both dicts
    (missing, [None] or empty), its own value plays no part and [time_th]
    is used. *)
Theorem event_key_time_fallback (py_str : value → string)
    (d1 d2 : list (string * value)) :
  (∀ f, f ∈ ["lat"; "lon"; "mag"; "depth_km"]%string →
        assoc f d1 = assoc f d2) →
  (truthy (default VNone (assoc "time_utc" d1)) = true →
   assoc "time_utc" d1 = assoc "time_utc" d2 →
   key_of py_str (VDict d1) = key_of py_str (VDict d2)) ∧
  (truthy (default VNone (assoc "time_utc" d1)) = false →
   truthy (default VNone (assoc "time_utc" d2)) = false →
   assoc "time_th" d1 = assoc "time_th" d2 →
   key_of py_str (VDict d1) = key_of py_str (VDict d2)).
Proof.
  intros Hf.
  assert (H4 : assoc "lat" d1 = assoc "lat" d2 ∧ assoc "lon" d1 = assoc "lon" d2 ∧
               assoc "mag" d1 = assoc "mag" d2 ∧
               assoc "depth_km" d1 = assoc "depth_km" d2).
  { split_and!; apply Hf; repeat first [by left | right]. }
  destruct H4 as (Hlat & Hlon & Hmag & Hdep).
  unfold key_of. cbn [py_get]. rewrite Hlat, Hlon, Hmag, Hdep. split.
  - intros Ht Hu. rewrite <- Hu, Ht. done.
  - intros Ht1 Ht2 Hth. by rewrite Ht1, Ht2, Hth.
Qed.

Lemma event_key_time_fallback_witness :
  key_of show (VDict [("time_utc", VStr ""); ("time_th", VStr "17:00")]%string)
  = key_of show (VDict [("time_th", VStr "17:00"); ("note", VInt 1)]%string).
Proof.
  refine (proj2 (event_key_time_fallback show _ _ _) _ _ _).
  - intros f Hf.
    repeat (apply elem_of_cons in Hf as [->|Hf]; [reflexivity|]).
    by apply elem_of_nil in Hf.
  - reflexivity.
  - reflexivity.
  - reflexivity.
Defined.

Section More.

Context {W : Type}.
Variable fetch0 : W → result value * W.
Variable compute0 : value → W → result value * W.
Variable time0 : W → Z * W.
Variable py_str : value → string.

Abbreviation goc := (_get_or_compute fetch0 compute0 time0 py_str).
Abbreviation key := (key_of py_str).

(** Case analysis of a call, branch by branch. *)
Ltac unfold_body :=
  unfold _get_or_compute, _compute_and_store, probe, try_except, mbind,
    M_bind, mret, M_ret, fetch, compute, lift, read, set_data,
    _make_event_key, set_event_key, now, set_ts, log.

Ltac branch :=
  match goal with
  | |- context [match ?x with _ => _ end] =>
      lazymatch x with
      | context [match _ with _ => _ end] => fail
      | _ => destruct x eqn:?
      end
  | |- context [if ?x then _ else _] =>
      lazymatch x with
      | context [match _ with _ => _ end] => fail
      | context [if _ then _ else _] => fail
      | _ => destruct x eqn:?
      end
  end.

Ltac branches :=
  repeat (cbn [world store calls data event_key ts fst snd negb andb];
          try branch).

(** [Racing._get_or_compute_among], branch by branch. *)
Ltac unfold_among :=
  unfold Racing._get_or_compute_among, Racing.probe_among, Racing.cas,
    Racing.interfere;
  unfold_body.

Lemma among_alone (others : nat → cache → cache) (force : bool) (st : mstate) :
  (∀ i c, others i c = c) →
  Racing._get_or_compute_among fetch0 compute0 time0 py_str others force st
  = goc force st.
Proof.
  intros Hid. destruct st as [w c l]. unfold_among.
  destruct force;
    repeat (cbn [world store calls data event_key ts fst snd negb andb];
            rewrite ?Hid; try reflexivity; try branch).
Qed.

(** X15.  How many calls of the collaborators one call of
    [_get_or_compute] makes, whatever the other callers do to the entry
    while this one does not hold the lock.  It makes at most one overlay
    computation.  It makes exactly one fetch, with one exception: a caller
    without [force] that found the cache empty and, once it holds the
    lock, finds a document stored by another caller (line 80) returns
    that document with no fetch and no computation.  Without other
    callers, the call is [Cache._get_or_compute]. *)
Theorem one_fetch_per_call (others : nat → cache → cache) (force : bool)
    (st : mstate) :
  let r := Racing._get_or_compute_among fetch0 compute0 time0 py_str others
             force st in
  let lost_race := negb force && is_none (data (store st))
                   && negb (is_none (data (others 1%nat (store st)))) in
  calls st `prefix_of` calls r.2 ∧
  (computations (calls r.2) ≤ S (computations (calls st)))%nat ∧
  (lost_race = false → fetches (calls r.2) = S (fetches (calls st))) ∧
  (lost_race = true →
   r = (inr (data (others 1%nat (store st))),
        MState (world st) (others 1%nat (store st)) (calls st))) ∧
  ((∀ i c, others i c = c) → r = goc force st).
Proof.
  intros r lost_race. subst r lost_race. split_and!.
  - unfold_among. destruct force; branches;
      repeat apply prefix_app_r; done.
  - unfold_among. destruct force; branches;
      rewrite ?computations_app; cbn; lia.
  - unfold_among. destruct force; branches;
      rewrite ?fetches_app; cbn in *; first [lia | congruence].
  - unfold_among. destruct force; [done|].
    cbn [world store calls data event_key ts negb andb].
    destruct (is_none (data (store st))); [|done].
    cbn [world store calls data event_key ts negb andb].
    by destruct (is_none (data (others 1%nat (store st)))).
  - apply among_alone.
Qed.

Lemma goc_populated (st : mstate) :
  is_none (data (store st)) = false →
  (goc false st).1 = inr (data (store (goc false st).2)).
Proof.
  intros Hd. unfold_body.
  cbn [world store calls data event_key ts]. rewrite Hd.
  branches; done.
Qed.

(** X16.  With an entry in the cache, a call without [force] never
    raises, whatever the collaborators do, and what it returns is the
    document that the cache holds after the call. *)
Theorem populated_cache_never_raises (st : mstate) :
  is_none (data (store st)) = false →
  let r := goc false st in
  (∀ e, r.1 ≠ inl e) ∧ r.1 = inr (data (store r.2)).
Proof.
  intros Hd r. subst r. rewrite (goc_populated st Hd). split; [|done].
  intros e. discriminate.
Qed.

(** X17.  A cache that holds a document keeps holding one, call after
    call, provided that the overlay computation never returns [None] as
    its document. *)
Theorem populated_stays_populated (force : bool) (st : mstate) :
  (∀ ev w d w', compute0 ev w = (inr d, w') → is_none d = false) →
  is_none (data (store st)) = false →
  is_none (data (store (goc force st).2)) = false.
Proof.
  intros Hc Hd. unfold_body.
  destruct force; branches;
    first [ done | congruence
          | eapply Hc; eassumption
          | eapply py_get_is_dict; eassumption ].
Qed.

(** X18.  [_compute_and_store] on documents that are not as expected, in a
    forced or first-ever computation.  If the computed document is not a
    dict, [AttributeError] is raised before anything is stored.  If it is
    a dict whose [meta] is not a dict, the document has already been
    stored when [AttributeError] is raised: the entry then holds the new
    document with the old fingerprint and the old timestamp. *)
Theorem compute_and_store_on_bad_document (force : bool) (st : mstate)
    ev w1 d w2 :
  force = true ∨ is_none (data (store st)) = true →
  fetch0 (world st) = (inr ev, w1) →
  compute0 ev w1 = (inr d, w2) →
  (∀ e, py_get d "meta" (VDict []) = inl e →
     goc force st
     = (inl e, MState w2 (store st)
                 (calls st ++ [CallFetch; CallCompute ev]))) ∧
  (∀ meta e, py_get d "meta" (VDict []) = inr meta →
     key meta = inl e →
     goc force st
     = (inl e, MState w2
                 (CacheEntry d (event_key (store st)) (ts (store st)))
                 (calls st ++ [CallFetch; CallCompute ev; CallKey meta]))).
Proof.
  intros Hm Hf Hc. rewrite (goc_mandatory _ _ _ _ force st Hm).
  unfold_body. cbn [world store calls data event_key ts].
  rewrite Hf. cbn [world store calls data event_key ts]. rewrite Hc.
  cbn [world store calls data event_key ts]. split.
  - intros e ->. by rewrite <- !app_assoc.
  - intros meta e -> Hk. cbn [world store calls data event_key ts].
    rewrite Hk. by rewrite <- !app_assoc.
Qed.

(** X19.  With an entry in the cache, a fetched value that is falsy
    ([None], an empty dict, an empty string, zero) or that is truthy but
    not a dict is treated as "no new event": the cached document is
    returned, the entry is left as it was, and the fetch is the only
    call. *)
Theorem unusable_event_serves_cache (st : mstate) ev w1 :
  is_none (data (store st)) = false →
  fetch0 (world st) = (inr ev, w1) →
  truthy ev = false ∨ (∀ d, ev ≠ VDict d) →
  goc false st
  = (inr (data (store st)), MState w1 (store st) (calls st ++ [CallFetch])).
Proof.
  intros Hd Hf Hev. unfold_body.
  cbn [world store calls data event_key ts]. rewrite Hd, Hf.
  cbn [world store calls data event_key ts].
  destruct (truthy ev) eqn:Ht.
  - destruct Hev as [|Hnd]; [done|].
    assert (Hp : probe_meta ev = inl AttributeError).
    { destruct ev; try done. by destruct (Hnd d). }
    by rewrite Hp.
  - done.
Qed.

End More.

(** ** At concrete inputs *)

(** A first caller that lost the race: no fetch, no computation. *)
Lemma one_fetch_per_call_witness :
  let r := Racing._get_or_compute_among scripted_fetch render (clock_at 9)
             show Racing.other_stored_E1 false
             (MState [inr E2] empty_cache []) in
  calls r.2 = [] ∧ r.1 = inr (data (store (warm []))).
Proof.
  destruct (one_fetch_per_call scripted_fetch render (clock_at 9) show
              Racing.other_stored_E1 false (MState [inr E2] empty_cache []))
    as (_ & _ & _ & H & _).
  cbn zeta in *. rewrite H by reflexivity. split; reflexivity.
Defined.

Lemma populated_cache_never_raises_witness :
  let st := warm [inl (Failure "timeout")] in
  (_get_or_compute scripted_fetch render_fails (clock_at 9) show false st).1
  = inr (data (store st)).
Proof.
  destruct (populated_cache_never_raises scripted_fetch render_fails
              (clock_at 9) show (warm [inl (Failure "timeout")])) as [_ H];
    [reflexivity|].
  cbn zeta in *. rewrite H. reflexivity.
Defined.

Lemma populated_stays_populated_witness :
  is_none (data (store
    (_get_or_compute scripted_fetch render (clock_at 9) show false
       (warm [inr E2])).2)) = false.
Proof.
  apply (populated_stays_populated scripted_fetch render (clock_at 9) show).
  - intros ev w d w' [= <- _]. reflexivity.
  - reflexivity.
Defined.

(** A collaborator whose document has [meta: null]. *)
Lemma compute_and_store_on_bad_document_witness :
  let bad (ev : value) (w : list (result value)) :=
    (inr (VDict [("meta", VNone)]%string) : result value, w) in
  let r := _get_or_compute scripted_fetch bad (clock_at 9) show true
             (warm [inr E2]) in
  r.1 = inl AttributeError ∧
  data (store r.2) = VDict [("meta", VNone)]%string ∧
  event_key (store r.2) = event_key (store (warm [inr E2])) ∧
  ts (store r.2) = 7.
Proof.
  intros bad r.
  destruct (compute_and_store_on_bad_document scripted_fetch bad (clock_at 9)
              show true (warm [inr E2]) E2 [] (VDict [("meta", VNone)]%string) [])
    as [_ H]; [by left | reflexivity | reflexivity |].
  subst r. rewrite (H VNone AttributeError); [|reflexivity..].
  split_and!; reflexivity.
Defined.

Lemma unusable_event_serves_cache_witness :
  let st := warm [inr (VList [VInt 1])] in
  (_get_or_compute scripted_fetch render (clock_at 9) show false st).1
  = inr (data (store st)).
Proof.
  cbn zeta.
  rewrite (unusable_event_serves_cache scripted_fetch render (clock_at 9) show
             (warm [inr (VList [VInt 1])]) (VList [VInt 1]) []);
    [reflexivity | reflexivity | reflexivity | by right].
Defined.

End CacheMore.

(* ===================================================================== *)
Module ApiMore.
Import Cache CacheFacts CacheMore Api.

Section Routes.

Context {W : Type}.
Variable fetch0 : W → result value * W.
Variable compute0 : value → W → result value * W.
Variable time0 : W → Z * W.
Variable py_str : value → string.
Variable simulate0 : value → value → value → value → W → result value * W.
Variable py_float : value → option value.
Variable str_exn : raised → string.
Variable json_ok : value → bool.

Abbreviation goc := (_get_or_compute fetch0 compute0 time0 py_str).
Abbreviation run_get :=
  (api_run_get fetch0 compute0 time0 py_str str_exn json_ok).
Abbreviation run_post :=
  (api_run fetch0 compute0 time0 py_str simulate0 py_float str_exn json_ok).
Abbreviation refresh :=
  (api_refresh fetch0 compute0 time0 py_str str_exn json_ok).
Abbreviation simulate := (api_simulate simulate0 py_float str_exn json_ok).

(** X20.  [GET /api/run] with an entry in the cache, whatever the
    collaborators do: no failure of theirs reaches the answer.  If the
    document that the cache holds afterwards can be rendered as JSON the
    answer is 200 with that document; if it cannot, building the response
    raises inside the [try] and the answer is 500 with that error. *)
Theorem get_run_on_populated_cache (st : mstate) :
  is_none (data (store st)) = false →
  let r := run_get st in
  let d := data (store r.2) in
  (json_ok d = true → r.1 = Http 200 d) ∧
  (json_ok d = false → r.1 = error_500 str_exn (NotEncodable d)).
Proof.
  intros Hd r. subst r. unfold api_run_get.
  pose proof (goc_populated fetch0 compute0 time0 py_str st Hd) as H.
  destruct (goc false st) as [res st'] eqn:Hg. cbn in H. subst res.
  cbn. unfold json_response. split; by intros ->.
Qed.

(** X25.  [GET /api/run] on an empty cache when the fetch raises: the
    answer is 500 with the text of the exception as [error], and the cache
    stays empty, so that the next request computes again; the failure is
    not remembered. *)
Theorem get_run_on_empty_cache_failure (st : mstate) (e : exn) w1 :
  is_none (data (store st)) = true →
  fetch0 (world st) = (inl e, w1) →
  let r := run_get st in
  r.1 = Http 500 (VDict [("error", VStr (str_exn (Core e)))]%string) ∧
  store r.2 = store st ∧
  is_none (data (store r.2)) = true.
Proof.
  intros Hd Hf r. subst r. unfold api_run_get.
  rewrite (goc_mandatory _ _ _ _ false st) by (by right).
  by rewrite (cas_fetch_fails _ _ _ _ st e w1 Hf).
Qed.

(** X21.  A [POST /api/run] whose body has no [mode] equal to "simulate"
    and a falsy or missing [force] answers as [GET /api/run] does and
    leaves the same state; with a truthy [force] it leaves the state that
    [POST /api/refresh] leaves. *)
Theorem post_run_without_mode (b : list (string * value)) (st : mstate) :
  is_str (body_get b "mode") "simulate" = false →
  (truthy (body_get b "force") = false → run_post b st = run_get st) ∧
  (truthy (body_get b "force") = true →
   (run_post b st).2 = (refresh st).2).
Proof.
  intros Hm. unfold api_run, api_run_get, api_refresh. rewrite Hm. split.
  - by intros ->.
  - intros ->. destruct (goc true st) as [[e|d] st']; cbn; [done|].
    by destruct (py_get d "meta" (VDict [])).
Qed.

(** X22.  The simulation routes never touch the cache: after
    [POST /api/simulate], or [POST /api/run] in "simulate" mode, the cache
    entry and the log of fetches and computations are as before, whatever
    the body; and the two routes answer alike. *)
Theorem simulate_leaves_cache_alone (b : list (string * value)) (st : mstate) :
  store (simulate b st).2 = store st ∧
  calls (simulate b st).2 = calls st ∧
  (is_str (body_get b "mode") "simulate" = true →
   run_post b st = simulate b st).
Proof.
  unfold api_simulate, api_run, simulate_request.
  split_and!.
  - destruct (float_arg py_float b "lat"); [done|].
    destruct (float_arg py_float b "lon"); [done|].
    destruct (float_arg py_float b "depth"); [done|].
    destruct (float_arg py_float b "mag"); [done|].
    by destruct (simulate0 _ _ _ _ _).
  - destruct (float_arg py_float b "lat"); [done|].
    destruct (float_arg py_float b "lon"); [done|].
    destruct (float_arg py_float b "depth"); [done|].
    destruct (float_arg py_float b "mag"); [done|].
    by destruct (simulate0 _ _ _ _ _).
  - by intros ->.
Qed.

(** X23.  A simulation request that lacks one of [lat], [lon], [depth],
    [mag], or gives one that [float] rejects, is answered 500 with an
    error body; the simulator is not called and the state is as before. *)
Theorem simulate_bad_parameter (b : list (string * value)) (st : mstate)
    (k : string) :
  k ∈ ["lat"; "lon"; "depth"; "mag"]%string →
  assoc k b = None ∨ (∃ v, assoc k b = Some v ∧ py_float v = None) →
  ∃ e, simulate b st = (error_500 str_exn e, st).
Proof.
  intros Hk Hbad.
  assert (Hf : ∃ e, float_arg py_float b k = inl e).
  { unfold float_arg. destruct Hbad as [->|(v & -> & ->)]; eauto. }
  destruct Hf as [e He].
  unfold api_simulate, simulate_request.
  destruct (float_arg py_float b "lat") as [e1|lat] eqn:H1; [by exists e1|].
  destruct (float_arg py_float b "lon") as [e2|lon] eqn:H2; [by exists e2|].
  destruct (float_arg py_float b "depth") as [e3|dep] eqn:H3; [by exists e3|].
  destruct (float_arg py_float b "mag") as [e4|mag] eqn:H4; [by exists e4|].
  exfalso.
  repeat (apply elem_of_cons in Hk as [->|Hk]; [congruence|]).
  by apply elem_of_nil in Hk.
Qed.

(** X24.  After a [POST /api/refresh] whose fetch and computation
    succeed, the content of the answer is [ok], the document's [meta] and
    the new fingerprint.  If that content can be rendered as JSON the
    answer is 200 with it; if it cannot (the [meta] holds something JSON
    does not have), building the response raises inside the [try] and the
    answer is 500, although the cache has been replaced.  In both cases
    [GET /api/cache_state] then reports a cache that is present, with the
    new fingerprint and the time of the computation, and changes
    nothing. *)
Theorem refresh_then_cache_state (st : mstate) ev w1 d w2 meta k t w3 :
  fetch0 (world st) = (inr ev, w1) →
  compute0 ev w1 = (inr d, w2) →
  py_get d "meta" (VDict []) = inr meta →
  key_of py_str meta = inr k →
  time0 w2 = (t, w3) →
  let st' := (refresh st).2 in
  let content := VDict [("ok", VBool true); ("meta", meta);
                        ("event_key", VStr k)]%string in
  (json_ok content = true → (refresh st).1 = Http 200 content) ∧
  (json_ok content = false →
   (refresh st).1 = error_500 str_exn (NotEncodable content)) ∧
  store st' = CacheEntry d (Some k) t ∧
  api_cache_state st'
  = (Http 200 (VDict [("has_cache", VBool true); ("event_key", VStr k);
                      ("ts", VFloat t 0); ("ttl_sec", VNone)]%string), st').
Proof.
  intros Hf Hc Hm Hk Ht st' content. subst st' content. unfold api_refresh.
  rewrite (goc_mandatory _ _ _ _ true st) by (by left).
  rewrite (cas_ok _ _ _ _ st ev w1 d w2 meta k t w3) by done.
  rewrite Hm. cbn. unfold api_cache_state, json_response. cbn.
  rewrite (py_get_is_dict _ _ _ _ Hm). split_and!; try done; by intros ->.
Qed.

End Routes.

Lemma get_run_on_populated_cache_witness :
  (api_run_get scripted_fetch render_fails (clock_at 9) show describe
     all_encodable (warm [inr E2])).1
  = Http 200 (data (store (warm [inr E2]))).
Proof.
  refine (proj1 (get_run_on_populated_cache scripted_fetch render_fails
            (clock_at 9) show describe all_encodable (warm [inr E2]) _) _);
    reflexivity.
Defined.

Lemma get_run_on_empty_cache_failure_witness :
  (api_run_get scripted_fetch render (clock_at 9) show describe all_encodable
     (MState [inl (Failure "timeout")] empty_cache [])).1
  = Http 500 (VDict [("error", VStr "timeout")]%string).
Proof.
  apply (get_run_on_empty_cache_failure scripted_fetch render (clock_at 9)
           show describe all_encodable
           (MState [inl (Failure "timeout")] empty_cache [])
           (Failure "timeout") []); reflexivity.
Defined.

Lemma post_run_without_mode_witness :
  api_run scripted_fetch render (clock_at 9) show echo_simulate number_only
    describe all_encodable [("force", VBool false)]%string (warm [inr E2])
  = api_run_get scripted_fetch render (clock_at 9) show describe
      all_encodable (warm [inr E2]).
Proof.
  apply (post_run_without_mode scripted_fetch render (clock_at 9) show
           echo_simulate number_only describe all_encodable); reflexivity.
Defined.

Lemma simulate_bad_parameter_witness :
  let b := [("lat", VInt 19); ("lon", VStr "east");
            ("depth", VInt 10); ("mag", VInt 4)]%string in
  ∃ e, api_simulate echo_simulate number_only describe all_encodable b
         (warm [inr E2])
       = (error_500 describe e, warm [inr E2]).
Proof.
  apply (simulate_bad_parameter echo_simulate number_only describe
           all_encodable _ _ "lon"%string).
  - right. left.
  - right. exists (VStr "east"). split; reflexivity.
Defined.

(** A refresh whose answer cannot be rendered: 500, with the cache
    replaced all the same. *)
Lemma refresh_then_cache_state_witness :
  let r := api_refresh scripted_fetch render (clock_at 9) show describe
             none_encodable (warm [inr E2]) in
  status r.1 = 500 ∧
  event_key (store r.2) = Some "2024-05-02T03:30:00Z|18.7|98.9|3.1|5"%string.
Proof.
  edestruct (refresh_then_cache_state scripted_fetch render (clock_at 9) show
               describe none_encodable (warm [inr E2])) as (_ & H & Hs & _);
    [reflexivity | reflexivity | reflexivity | reflexivity | reflexivity |].
  cbn zeta in *. rewrite H by reflexivity. rewrite Hs. split; reflexivity.
Defined.

End ApiMore.
